(** * World Trivia TV: the retrieval handlers and the playback timer

    A shallow embedding of [src/pages/index.tsx], which holds four
    modules of the application one after the other: the selection screen
    [Home], the API route [handler] (one country), its variant (a
    comma-separated list of countries) and the playback screen [Play].

    - JavaScript strings are modelled as [string] (8-bit characters);
      [toLowerCase] acts on the ASCII letters only.
    - JavaScript arrays live in a store ([gmap loc (list T)]): an array
      value is a reference, [[...array]] and [filter] allocate, an indexed
      assignment updates the store in place.
    - [Math.random] draws from a stream held by the world and returns
      doubles; the arithmetic on them rounds as doubles do.
    - React state is a record; an event handler reads the snapshot of the
      render it belongs to and produces the next snapshot together with
      the list of texts handed to [speak]. *)

From Stdlib Require Import ZArith QArith Qround Lia String Ascii Permutation.
From stdpp Require Import base option list gmap strings pretty.

Local Open Scope string_scope.
Local Open Scope Z_scope.

(** ** JavaScript numbers

    A Number is an IEEE 754 double. The integers and the products that
    the program computes are modelled exactly, with the rounding to 53
    significant bits (to nearest, ties to even) that a double imposes. *)

Module JsNumber.

(** The integer [m >= 0] rounded to 53 significant bits: below [2^53]
    nothing is lost; above, the [e] low bits are rounded away. *)
Definition round53 (m : Z) : Z :=
  if m <? 2 ^ 53 then m
  else
    let e := Z.log2 m - 52 in
    let q := m / 2 ^ e in
    let rem := m mod 2 ^ e in
    let half := 2 ^ (e - 1) in
    let q' := if rem <? half then q
              else if half <? rem then q + 1
              else if Z.even q then q else q + 1 in
    q' * 2 ^ e.

(** The Number value of the integer [z]. The two infinities are written
    [2^1024] and [-2^1024], the first magnitudes that no double has. *)
Definition to_double (z : Z) : Z :=
  let mag := round53 (Z.abs z) in
  Z.sgn z * (if 2 ^ 1024 <=? mag then 2 ^ 1024 else mag).

(** A double that is not negative, as [significand * 2^exponent]. *)
Record Double : Type := mkDouble {
  significand : Z;
  exponent : Z
}.

(** An integer used as a Number (exact below [2^53]). *)
Definition of_int (n : Z) : Double := mkDouble n 0.

(** The product of two doubles, rounded; exact as to the rounding when
    the result is in the normal range, as the products of a draw of
    [Math.random] with an index are. *)
Definition mul (x y : Double) : Double :=
  mkDouble (round53 (significand x * significand y)) (exponent x + exponent y).

(** [Math.floor] *)
Definition floor (x : Double) : Z :=
  if 0 <=? exponent x then significand x * 2 ^ exponent x
  else significand x / 2 ^ (- exponent x).

(** The value of a double as a rational number. *)
Definition value (x : Double) : Q :=
  if 0 <=? exponent x then inject_Z (significand x * 2 ^ exponent x)
  else Qmake (significand x) (Z.to_pos (2 ^ (- exponent x))).

(** The 53 random bits of a draw in [[0, 1)]: [Math.random] returns a
    multiple of [2^-53] (engines that draw 52 bits return every other
    one). *)
Definition bits53 (r : Q) : Z := Qfloor (r * inject_Z (2 ^ 53)).

End JsNumber.

(** ** JavaScript strings *)

Module JsString.

Definition lower_ascii (c : ascii) : ascii :=
  let n := nat_of_ascii c in
  if ((65 <=? n) && (n <=? 90))%nat then ascii_of_nat (n + 32) else c.

(** [String.prototype.toLowerCase], on the ASCII range. *)
Fixpoint toLowerCase (s : string) : string :=
  match s with
  | EmptyString => EmptyString
  | String c s' => String (lower_ascii c) (toLowerCase s')
  end.

(** [s.split(',')] for a one-character separator: the empty string gives
    one empty field, and [n] separators give [n + 1] fields. *)
Fixpoint split (sep : ascii) (s : string) : list string :=
  match s with
  | EmptyString => [EmptyString]
  | String c s' =>
      if Ascii.eqb c sep then EmptyString :: split sep s'
      else match split sep s' with
           | h :: t => String c h :: t
           | [] => [String c EmptyString]
           end
  end.

(** The white space that [parseInt] skips (ASCII part of
    [StrWhiteSpaceChar]): TAB, LF, VT, FF, CR, SP. *)
Definition is_space (c : ascii) : bool :=
  let n := nat_of_ascii c in
  ((9 <=? n) && (n <=? 13) || (n =? 32))%nat.

Fixpoint trimStart (s : string) : string :=
  match s with
  | EmptyString => EmptyString
  | String c s' => if is_space c then trimStart s' else s
  end.

(** The value of [c] as a digit of radix [radix], if it is one. *)
Definition digit_of (radix : Z) (c : ascii) : option Z :=
  let n := Z.of_nat (nat_of_ascii c) in
  let d := if (48 <=? n) && (n <=? 57) then Some (n - 48)
           else if (97 <=? n) && (n <=? 122) then Some (n - 87)
           else if (65 <=? n) && (n <=? 90) then Some (n - 55)
           else None in
  match d with
  | Some v => if v <? radix then Some v else None
  | None => None
  end.

(** Reads the longest prefix of radix-[radix] digits; [acc] is the value
    read so far and [seen] tells whether a digit was read. *)
Fixpoint digits (radix : Z) (s : string) (acc : Z) (seen : bool) : option Z :=
  match s with
  | EmptyString => if seen then Some acc else None
  | String c s' =>
      match digit_of radix c with
      | Some d => digits radix s' (radix * acc + d) true
      | None => if seen then Some acc else None
      end
  end.

(** [parseInt(s)] with no radix argument. [None] is [NaN]; otherwise
    the result is the Number value of the integer read, that is the
    integer rounded to a double ([JsNumber.to_double]). For more than 20
    significant decimal digits the language lets an engine replace the
    digits after the 20th by zeros before rounding; this model reads
    them all. *)
Definition parseInt (s : string) : option Z :=
  let s1 := trimStart s in
  let '(sign, s2) :=
    match s1 with
    | String "-" r => (-1, r)
    | String "+" r => (1, r)
    | _ => (1, s1)
    end in
  let '(radix, s3) :=
    match s2 with
    | String "0" (String "x" r) => (16, r)
    | String "0" (String "X" r) => (16, r)
    | _ => (10, s2)
    end in
  match digits radix s3 0 false with
  | Some v => Some (JsNumber.to_double (sign * v))
  | None => None
  end.

End JsString.

(** ** JavaScript arrays in a store, exceptions, [Math.random] *)

Definition loc := positive.

Record World (T : Type) : Type := mkWorld {
  heap : gmap loc (list T);   (* the arrays that are alive *)
  random : nat -> Q;          (* the successive draws behind Math.random() *)
  calls : nat                 (* how many of them were consumed *)
}.
Arguments mkWorld {T} _ _ _.
Arguments heap {T} _.
Arguments random {T} _.
Arguments calls {T} _.

(** The result of running a piece of code: a value and the new world, an
    exception on its way to the closest [catch], or a behaviour that the
    model does not cover (an index out of range, which JavaScript answers
    with [undefined], or a reference that was never allocated). *)
Inductive outcome (T A : Type) : Type :=
| Ok (a : A) (w : World T)
| Throw (e : string) (w : World T)
| Undef.
Arguments Ok {T A} _ _.
Arguments Throw {T A} _ _.
Arguments Undef {T A}.

Definition M (T A : Type) : Type := World T -> outcome T A.

Definition ret {T A} (a : A) : M T A := fun w => Ok a w.

Definition bind {T A B} (m : M T A) (k : A -> M T B) : M T B :=
  fun w =>
    match m w with
    | Ok a w' => k a w'
    | Throw e w' => Throw e w'
    | Undef => Undef
    end.

Definition throw {T A} (e : string) : M T A := fun w => Throw e w.

(** [try { body } catch (error) { handler }] *)
Definition try_catch {T A} (body : M T A) (handler : string -> M T A) : M T A :=
  fun w =>
    match body w with
    | Ok a w' => Ok a w'
    | Throw e w' => handler e w'
    | Undef => Undef
    end.

Notation "'let*' x ':=' m 'in' k" := (bind m (fun x => k))
  (at level 10, x name, m at level 100, k at level 200).
Notation "'do' m 'then' k" := (bind m (fun _ => k))
  (at level 10, m at level 100, k at level 200).

Section Arrays.
Context {T : Type}.

Definition set_heap (h : gmap loc (list T)) (w : World T) : World T :=
  mkWorld h (random w) (calls w).

(** Reads the contents of an array. *)
Definition array_contents (a : loc) : M T (list T) :=
  fun w => match heap w !! a with
           | Some l => Ok l w
           | None => Undef
           end.

(** Allocates a new array holding [l]. *)
Definition array_new (l : list T) : M T loc :=
  fun w => let a := fresh (dom (heap w)) in
           Ok a (set_heap (<[a := l]> (heap w)) w).

(** [array.length] *)
Definition array_length (a : loc) : M T Z :=
  let* l := array_contents a in ret (Z.of_nat (length l)).

(** [array[i]], in range. *)
Definition array_get (a : loc) (i : Z) : M T T :=
  let* l := array_contents a in
  if (0 <=? i) then
    match l !! Z.to_nat i with
    | Some x => ret x
    | None => fun _ => Undef
    end
  else fun _ => Undef.

(** [array[i] = x], in range. *)
Definition array_set (a : loc) (i : Z) (x : T) : M T unit :=
  fun w => match heap w !! a with
           | Some l =>
               if (0 <=? i) && (i <? Z.of_nat (length l))
               then Ok tt (set_heap (<[a := <[Z.to_nat i := x]> l]> (heap w)) w)
               else Undef
           | None => Undef
           end.

(** [[...array]] *)
Definition array_spread (a : loc) : M T loc :=
  let* l := array_contents a in array_new l.

(** The callback of [filter] is run on the elements in order until it
    throws. *)
Fixpoint filter_list (p : T -> M T bool) (l : list T) : M T (list T) :=
  match l with
  | [] => ret []
  | x :: l' =>
      let* b := p x in
      let* r := filter_list p l' in
      ret (if b then x :: r else r)
  end.

(** [array.filter(p)] *)
Definition array_filter (a : loc) (p : T -> M T bool) : M T loc :=
  let* l := array_contents a in
  let* r := filter_list p l in
  array_new r.

(** [Math.random()]: the next draw, as the double of its 53 bits. *)
Definition math_random : M T JsNumber.Double :=
  fun w => Ok (JsNumber.mkDouble (JsNumber.bits53 (random w (calls w))) (-53))
              (mkWorld (heap w) (random w) (S (calls w))).

(** [Math.floor] *)
Definition math_floor (x : JsNumber.Double) : Z := JsNumber.floor x.

(** The body and the loop of [shuffleArray]:
    [for (let i = shuffled.length - 1; i > 0; i--) { ... }].
    The counter is a natural number: the loop is entered with
    [length - 1] (with [0] for the empty array, where JavaScript has
    [-1]; neither runs the body) and stops at [0]. *)
Fixpoint shuffle_loop (shuffled : loc) (i : nat) : M T unit :=
  match i with
  | O => ret tt
  | S i' =>
      let iz := Z.of_nat i in
      let* r := math_random in
      let j := math_floor (JsNumber.mul r (JsNumber.of_int (iz + 1))) in
      (* [shuffled[i], shuffled[j]] = [shuffled[j], shuffled[i]] *)
      let* x := array_get shuffled j in
      let* y := array_get shuffled iz in
      do array_set shuffled iz x then
      do array_set shuffled j y then
      shuffle_loop shuffled i'
  end.

Definition shuffleArray (array : loc) : M T loc :=
  let* shuffled := array_spread array in
  let* n := array_length shuffled in
  do shuffle_loop shuffled (Z.to_nat (n - 1)) then
  ret shuffled.

End Arrays.

(** ** The data model shared by the API routes and the playback screen *)

Record TriviaItem : Type := mkItem {
  country : string;
  period : string;
  question : string;
  answer : string;
  funFact : option string
}.

#[global] Instance TriviaItem_eq_dec : EqDecision TriviaItem.
Proof. solve_decision. Defined.

(** The text that reveals the answer of [item]; [item.funFact] is used
    as a condition, for which [undefined] and the empty string are falsy. *)
Definition answerText (item : TriviaItem) : string :=
  match funFact item with
  | Some fact =>
      if negb (String.eqb fact "")
      then "The answer is: " ++ answer item ++ ". " ++ fact
      else "The answer is: " ++ answer item
  | None => "The answer is: " ++ answer item
  end.

(** The text that Repeat speaks once the answer of [item] is showing. *)
Definition repeatText (item : TriviaItem) : string :=
  match funFact item with
  | Some fact =>
      if negb (String.eqb fact "")
      then question item ++ ". The answer is: " ++ answer item ++ ". " ++ fact
      else question item ++ ". The answer is: " ++ answer item
  | None => question item ++ ". The answer is: " ++ answer item
  end.

(** A value of [req.query] or [router.query]: [string | string[]]; a key
    that is absent reads as [undefined], here [None]. *)
Inductive QueryValue : Type :=
| QString (s : string)
| QArray (l : list string).

Definition Query := gmap string QueryValue.

(** JavaScript truthiness of [string | string[] | undefined]. *)
Definition truthy (v : option QueryValue) : bool :=
  match v with
  | None => false
  | Some (QString s) => negb (String.eqb s "")
  | Some (QArray _) => true
  end.

(** [v === s] for a string [s]. *)
Definition strict_eq (v : option QueryValue) (s : string) : bool :=
  match v with
  | Some (QString t) => String.eqb t s
  | _ => false
  end.

Inductive ResponseData : Type :=
| Items (items : list TriviaItem)
| ErrorBody (error : string).

Record Response : Type := mkResponse {
  status : Z;
  body : ResponseData
}.

(** [(v as string).toLowerCase()]: the cast is erased, so anything but a
    string has no such method and the call throws. *)
Definition value_toLowerCase (v : option QueryValue) : M TriviaItem string :=
  match v with
  | Some (QString s) => ret (JsString.toLowerCase s)
  | _ => throw "TypeError: toLowerCase is not a function"
  end.

(** [(v as string).split(',')] *)
Definition value_split (v : option QueryValue) : M TriviaItem (list string) :=
  match v with
  | Some (QString s) => ret (JsString.split "," s)
  | _ => throw "TypeError: split is not a function"
  end.

(** [if (period && period !== 'any' &&
         (period as string).toLowerCase() !== 'any time')
      filtered = filtered.filter(item => item.period === period)],
    the same in both routes. *)
Definition filter_period (q_period : option QueryValue) (filtered : loc)
  : M TriviaItem loc :=
  if truthy q_period && negb (strict_eq q_period "any") then
    let* p := value_toLowerCase q_period in
    if negb (String.eqb p "any time") then
      array_filter filtered (fun item => ret (strict_eq q_period (period item)))
    else ret filtered
  else ret filtered.

(** *** The route for one country. [triviaData] is the array imported
    from [@/data/trivia.json]. *)
Module ApiTrivia.

Definition handler (triviaData : loc) (query : Query) : M TriviaItem Response :=
  try_catch
    (let q_country := query !! "country" in
     let q_period := query !! "period" in
     if negb (truthy q_country) then
       ret (mkResponse 400 (ErrorBody "Country parameter is required"))
     else
       let* filtered :=
         array_filter triviaData (fun item =>
           let* c := value_toLowerCase q_country in
           ret (String.eqb (JsString.toLowerCase (country item)) c)) in
       let* filtered := filter_period q_period filtered in
       let* shuffled := shuffleArray filtered in
       let* items := array_contents shuffled in
       ret (mkResponse 200 (Items items)))
    (fun _ =>
       ret (mkResponse 500 (ErrorBody "Internal server error while fetching trivia"))).

End ApiTrivia.

(** *** The route for a comma-separated list of countries. *)
Module ApiTriviaMulti.

Definition handler (triviaData : loc) (query : Query) : M TriviaItem Response :=
  try_catch
    (let q_countries := query !! "countries" in
     let q_period := query !! "period" in
     if negb (truthy q_countries) then
       ret (mkResponse 400 (ErrorBody "Countries parameter is required"))
     else
       let* countryList := value_split q_countries in
       let* filtered :=
         array_filter triviaData (fun item =>
           ret (existsb (fun c =>
                  String.eqb (JsString.toLowerCase (country item))
                             (JsString.toLowerCase c)) countryList)) in
       let* filtered := filter_period q_period filtered in
       let* shuffled := shuffleArray filtered in
       let* items := array_contents shuffled in
       ret (mkResponse 200 (Items items)))
    (fun _ =>
       ret (mkResponse 500 (ErrorBody "Internal server error while fetching trivia"))).

End ApiTriviaMulti.

(** ** The playback screen [Play] *)

Module Play.

(** The React state of the component (the two display preferences,
    [highContrast] and [largeText], only choose style classes). *)
Record PlayState : Type := mkPlayState {
  triviaItems : list TriviaItem;
  currentIndex : Z;
  showAnswer : bool;
  loading : bool;
  error : string;
  isPaused : bool;
  hasEnded : bool;
  countdown : Z
}.

(** [useState] initial values. *)
Definition initialState : PlayState :=
  mkPlayState [] 0 false true "" false false 8.

Definition setTriviaItems (v : list TriviaItem) (s : PlayState) : PlayState :=
  mkPlayState v (currentIndex s) (showAnswer s) (loading s) (error s)
              (isPaused s) (hasEnded s) (countdown s).
Definition setCurrentIndex (v : Z) (s : PlayState) : PlayState :=
  mkPlayState (triviaItems s) v (showAnswer s) (loading s) (error s)
              (isPaused s) (hasEnded s) (countdown s).
Definition setShowAnswer (v : bool) (s : PlayState) : PlayState :=
  mkPlayState (triviaItems s) (currentIndex s) v (loading s) (error s)
              (isPaused s) (hasEnded s) (countdown s).
Definition setLoading (v : bool) (s : PlayState) : PlayState :=
  mkPlayState (triviaItems s) (currentIndex s) (showAnswer s) v (error s)
              (isPaused s) (hasEnded s) (countdown s).
Definition setError (v : string) (s : PlayState) : PlayState :=
  mkPlayState (triviaItems s) (currentIndex s) (showAnswer s) (loading s) v
              (isPaused s) (hasEnded s) (countdown s).
Definition setIsPaused (v : bool) (s : PlayState) : PlayState :=
  mkPlayState (triviaItems s) (currentIndex s) (showAnswer s) (loading s)
              (error s) v (hasEnded s) (countdown s).
Definition setHasEnded (v : bool) (s : PlayState) : PlayState :=
  mkPlayState (triviaItems s) (currentIndex s) (showAnswer s) (loading s)
              (error s) (isPaused s) v (countdown s).
Definition setCountdown (v : Z) (s : PlayState) : PlayState :=
  mkPlayState (triviaItems s) (currentIndex s) (showAnswer s) (loading s)
              (error s) (isPaused s) (hasEnded s) v.

(** What reaches the speech synthesiser. *)
Inductive Narration : Type :=
| Cancel
| Say (text : string).

(** [speak]: cancel what is being said, then say [text]. *)
Definition speak (text : string) : list Narration := [Cancel; Say text].

Definition length_of (s : PlayState) : Z := Z.of_nat (length (triviaItems s)).

(** [triviaItems[currentIndex]], [None] for [undefined]. *)
Definition currentItem (s : PlayState) : option TriviaItem :=
  if 0 <=? currentIndex s then triviaItems s !! Z.to_nat (currentIndex s)
  else None.

(** [error] is used as a condition: the empty string is falsy. *)
Definition has_error (s : PlayState) : bool := negb (String.eqb (error s) "").

(** The guard of the timer effect: the interval runs only when this
    holds of the rendered state. *)
Definition timerRunning (s : PlayState) : bool :=
  negb (loading s || has_error s || (length_of s =? 0) || isPaused s || hasEnded s).

(** The callback of [setInterval], with the updater it passes to
    [setCountdown]. The reveal branch reads fields of [currentItem]:
    [None] stands for the [TypeError] raised when it is [undefined]. *)
Definition timerCallback (s : PlayState) : option (PlayState * list Narration) :=
  let prev := countdown s in
  if prev <=? 1 then
    if negb (showAnswer s) then
      match currentItem s with
      | Some item =>
          Some (setCountdown 6 (setShowAnswer true s), speak (answerText item))
      | None => None
      end
    else if currentIndex s <? length_of s - 1 then
      Some (setCountdown 8 (setShowAnswer false
              (setCurrentIndex (currentIndex s + 1) s)), [])
    else
      Some (setCountdown 0 (setHasEnded true s),
            speak "Trivia has finished. You can replay from the beginning or go back to the menu.")
  else Some (setCountdown (prev - 1) s, []).

(** The dependency list of the effect that speaks the question. *)
Definition speakDeps (s : PlayState)
  : Z * list TriviaItem * bool * string * bool * bool * bool :=
  (currentIndex s, triviaItems s, loading s, error s, isPaused s,
   hasEnded s, showAnswer s).

(** The effect "speak question when it changes": it runs after a render
    whose dependencies differ from those of the render before ([prev]). *)
Definition speakQuestionEffect (prev s : PlayState)
  : option (PlayState * list Narration) :=
  if bool_decide (speakDeps prev = speakDeps s) then Some (s, [])
  else if negb (loading s) && negb (has_error s) && (0 <? length_of s)
          && negb (isPaused s) && negb (hasEnded s) && negb (showAnswer s)
  then match currentItem s with
       | Some item => Some (setCountdown 8 s, speak (question item))
       | None => None
       end
  else Some (s, []).

Definition handlePausePlay (s : PlayState) : PlayState * list Narration :=
  (setIsPaused (negb (isPaused s)) s,
   if isPaused s then speak "Resuming trivia" else (speak "Paused" ++ [Cancel])%list).

Definition handleRepeat (s : PlayState) : option (PlayState * list Narration) :=
  if length_of s =? 0 then Some (s, [])
  else match currentItem s with
       | Some item =>
           if showAnswer s then Some (s, speak (repeatText item))
           else Some (s, speak (question item))
       | None => None
       end.

Definition handleNextQuestion (s : PlayState) : PlayState * list Narration :=
  if currentIndex s <? length_of s - 1 then
    (setCountdown 8 (setShowAnswer false (setCurrentIndex (currentIndex s + 1) s)),
     speak "Moving to next question")
  else
    (setHasEnded true s, speak "That was the last question. Trivia has finished.").

Definition handleReplay (s : PlayState) : PlayState * list Narration :=
  (setCountdown 8 (setIsPaused false (setHasEnded false
     (setShowAnswer false (setCurrentIndex 0 s)))),
   speak "Restarting trivia from the beginning").

(** Which of the four screens the component returns. *)
Inductive Screen : Type := LoadingScreen | ErrorScreen | FinishedScreen | PlayingScreen.

Definition screen (s : PlayState) : Screen :=
  if loading s then LoadingScreen
  else if has_error s then ErrorScreen
  else if hasEnded s then FinishedScreen
  else PlayingScreen.

(** *** Loading the items *)

(** What [fetch] and [response.json()] deliver. *)
Inductive FetchResult : Type :=
| NetworkFailure
| Responded (r : Response).

(** [response.ok] *)
Definition ok (r : Response) : bool := (200 <=? status r) && (status r <=? 299).

(** [ToString] of a query value, as [parseInt] applies it. *)
Definition value_toString (v : QueryValue) : string :=
  match v with
  | QString s => s
  | QArray l => String.concat "," l
  end.

(** [count ? parseInt(count as string) : 10]; [None] is [NaN]. *)
Definition requestedCount (count : option QueryValue) : option Z :=
  if truthy count then
    match count with
    | Some v => JsString.parseInt (value_toString v)
    | None => None
    end
  else Some 10.

(** [items.slice(0, end)]: [NaN] counts as [0], a negative [end] is
    taken from the end of the array. *)
Definition slice0 {A} (items : list A) (end_ : option Z) : list A :=
  let len := Z.of_nat (length items) in
  let relativeEnd := match end_ with Some e => e | None => 0 end in
  let final := if relativeEnd <? 0 then Z.max (len + relativeEnd) 0
               else Z.min relativeEnd len in
  take (Z.to_nat final) items.

Definition notFoundMessage : string :=
  "No trivia found for this selection. Please go back and try another combination.".

(** [fetchTrivia], from the moment the request has completed. The
    narration of a successful load names the country of the query. *)
Definition fetchTrivia (q_country : string) (count : option QueryValue)
           (result : FetchResult) (s : PlayState) : PlayState * list Narration :=
  let s := setLoading true s in
  let failed :=
    (setLoading false
       (setError "Failed to load trivia. Please check your connection and try again." s),
     speak "Failed to load trivia. Please go back to the menu and try again.") in
  match result with
  | NetworkFailure => failed
  | Responded r =>
      if negb (ok r) then failed
      else match body r with
           | ErrorBody _ => failed     (* data.items is undefined *)
           | Items items =>
               if (length items =? 0)%nat then
                 (setLoading false (setError notFoundMessage s), speak notFoundMessage)
               else
                 let limitedItems := slice0 items (requestedCount count) in
                 (setLoading false (setTriviaItems limitedItems s),
                  speak ("Starting trivia for " ++ q_country ++ " with "
                         ++ pretty (length limitedItems)
                         ++ " questions. Get ready for your first question."))
           end
  end.

(** *** The component as a transition system *)

Inductive Event : Type :=
| Tick              (* the interval fires *)
| PausePlay         (* the Pause / Resume button *)
| Repeat            (* the Repeat button *)
| NextQuestion      (* the Next button *)
| Replay.           (* the Replay button of the finished screen *)

(** An event can happen only if its source exists: the interval while
    [timerRunning], a button while the screen that shows it is rendered. *)
Definition enabled (ev : Event) (s : PlayState) : bool :=
  match ev with
  | Tick => timerRunning s
  | PausePlay | Repeat | NextQuestion =>
      match screen s with PlayingScreen => true | _ => false end
  | Replay =>
      match screen s with FinishedScreen => true | _ => false end
  end.

Definition handle (ev : Event) (s : PlayState) : option (PlayState * list Narration) :=
  match ev with
  | Tick => timerCallback s
  | PausePlay => Some (handlePausePlay s)
  | Repeat => handleRepeat s
  | NextQuestion => Some (handleNextQuestion s)
  | Replay => Some (handleReplay s)
  end.

(** The handler of the event, then the effects of the render that its
    state updates cause. *)
Definition fire (ev : Event) (s : PlayState) : option (PlayState * list Narration) :=
  match handle ev s with
  | Some (s1, out1) =>
      match speakQuestionEffect s s1 with
      | Some (s2, out2) => Some (s2, (out1 ++ out2)%list)
      | None => None
      end
  | None => None
  end.

(** One step of the screen: an enabled event whose handler completes. *)
Inductive step : PlayState -> Event -> PlayState -> Prop :=
| step_fire s ev s' out :
    enabled ev s = true -> fire ev s = Some (s', out) -> step s ev s'.

(** A sequence of steps; the trace lists each event with the state it
    leads to, in the order they occur. *)
Inductive steps : PlayState -> list (Event * PlayState) -> PlayState -> Prop :=
| steps_nil s : steps s [] s
| steps_cons s ev s1 tr s2 :
    step s ev s1 -> steps s1 tr s2 -> steps s ((ev, s1) :: tr) s2.

(** The executable counterpart: the state after the events [evs], if
    each of them is enabled when its turn comes and no handler throws. *)
Fixpoint run (evs : list Event) (s : PlayState) : option PlayState :=
  match evs with
  | [] => Some s
  | ev :: evs' =>
      if enabled ev s then
        match fire ev s with
        | Some (s1, _) => run evs' s1
        | None => None
        end
      else None
  end.

(** The state in which playback of [items] starts: the load has
    completed and the first question has been spoken. *)
Definition playing (items : list TriviaItem) : PlayState :=
  mkPlayState items 0 false false "" false false 8.

(** A tick at which the countdown expires. *)
Definition expires (s : PlayState) : bool := countdown s <=? 1.

(** How often [hasEnded] turns from false to true along the states
    [rest] that follow [s]. *)
Fixpoint endings (s : PlayState) (rest : list PlayState) : nat :=
  match rest with
  | [] => 0
  | s' :: rest' =>
      ((if negb (hasEnded s) && hasEnded s' then 1 else 0) + endings s' rest')%nat
  end.

(** How often Replay is pressed in a trace: each press starts a run. *)
Definition replays (tr : list (Event * PlayState)) : nat :=
  length (List.filter (fun p => match fst p with Replay => true | _ => false end) tr).

(** What holds of every state of a playback of [items]. *)
Definition invariant (items : list TriviaItem) (s : PlayState) : Prop :=
  triviaItems s = items /\ loading s = false /\ error s = ""
  /\ 0 <= currentIndex s < Z.of_nat (length items)
  /\ 0 <= countdown s
  /\ (hasEnded s = false -> 1 <= countdown s).

(** The state of a result, without the narration. *)
Definition state_of (r : option (PlayState * list Narration)) : option PlayState :=
  fst <$> r.

End Play.

(** ** The shuffle as the specification words it

    "A standard in-place Fisher–Yates shuffle, iterating from the last
    index down to 1, swapping each element with a uniformly chosen
    element at or before its position." These definitions follow that
    sentence; [shuffleArray] above follows the source. *)

Section FisherYates.
Context {T : Type}.

(** Exchanges the elements at the positions [i] and [j]. *)
Definition swap_at (l : list T) (i j : nat) : list T :=
  match l !! i, l !! j with
  | Some y, Some x => <[j := y]> (<[i := x]> l)
  | _, _ => l
  end.

(** From index [i] down to 1, exchange position [i] with [choice i]. *)
Fixpoint fy_from (choice : nat -> nat) (i : nat) (l : list T) : list T :=
  match i with
  | O => l
  | S i' => fy_from choice i' (swap_at l i (choice i))
  end.

Definition fisher_yates (choice : nat -> nat) (l : list T) : list T :=
  fy_from choice (length l - 1) l.

(** [choice] is a Fisher–Yates choice for a list of length [n]: at each
    position from [n - 1] down to 1 it picks a position at or before it. *)
Definition choice_ok (choice : nat -> nat) (n : nat) : Prop :=
  forall i, (1 <= i < n)%nat -> (choice i <= i)%nat.

End FisherYates.

(** The index that a draw of [Math.random] with the 53 bits [m] selects
    at position [i]: [Math.floor(r * (i + 1))] for [r = m / 2^53], the
    product being rounded to a double before the floor. *)
Definition pick (m : Z) (i : nat) : Z :=
  math_floor (JsNumber.mul (JsNumber.mkDouble m (-53))
                           (JsNumber.of_int (Z.of_nat i + 1))).

(** The double that the [k]-th call of [Math.random] returns in [w], as a
    rational number. *)
Definition draw {T} (w : World T) (k : nat) : Q :=
  Qmake (JsNumber.bits53 (random w k)) (2 ^ 53).

(** The relative error of a rounding to a double: [2^-53]. *)
Definition epsilon : Q := Qmake 1 (2 ^ 53).

(** The choices that the loop of [shuffleArray] makes when it is entered
    at the index [last] in the world [w]: position [last] takes the next
    draw, position [last - 1] the one after, and so on. *)
Definition drawn {T} (w : World T) (last : nat) (i : nat) : nat :=
  Z.to_nat (pick (JsNumber.bits53 (random w (calls w + (last - i))%nat)) i).

(** [Math.random] answers in [[0, 1)]. *)
Definition random_ok {T} (w : World T) : Prop :=
  forall k, (0 <= random w k /\ random w k < 1)%Q.

(** The value that a computation returns, if it returns. *)
Definition returned {T A} (o : outcome T A) : option A :=
  match o with
  | Ok a _ => Some a
  | _ => None
  end.

(** [w'] has the arrays of [w] (and maybe more) and the same source of
    random numbers, at the same point. *)
Definition extends {T} (w w' : World T) : Prop :=
  random w' = random w /\ calls w' = calls w
  /\ forall b lb, heap w !! b = Some lb -> heap w' !! b = Some lb.

(** ** Sample inputs *)

(** A stream of draws in [[0, 1)]: 0, 1/4, 1/2, 3/4, 0, ... *)
Definition sample_random (k : nat) : Q := (Z.of_nat k mod 4) # 4.

(** A store with one array of four numbers. *)
Definition sample_world : World nat :=
  mkWorld {[ 1%positive := [10; 20; 30; 40]%nat ]} sample_random 3.

(** ** The retrieval contract, as the specification words it

    "Return the subset of the static trivia collection whose country
    matches case-insensitively (one variant additionally accepts a
    comma-separated list of countries, matching any), and whose period
    equals the requested period unless the period is the sentinel."
    These definitions follow that sentence; the handlers above follow the
    source. *)

Module Contract.

(** [item] is tagged with the country [c], whatever the letter case. *)
Definition country_matches (c : string) (item : TriviaItem) : bool :=
  String.eqb (JsString.toLowerCase (country item)) (JsString.toLowerCase c).

(** [item] is tagged with one of the comma-separated countries of [cs]. *)
Definition countries_match (cs : string) (item : TriviaItem) : bool :=
  existsb (fun c => country_matches c item) (JsString.split "," cs).

(** The period does not restrict the result: it is absent (or empty), it
    is the word "any" as the selection screen sends it, or it is the
    label "any time" in any letter case. *)
Definition period_unfiltered (q_period : option QueryValue) : bool :=
  match q_period with
  | None => true
  | Some (QString p) =>
      String.eqb p "" || String.eqb p "any"
      || String.eqb (JsString.toLowerCase p) "any time"
  | Some (QArray _) => false
  end.

(** The reading under which both sentinels are case-insensitive. *)
Definition period_unfiltered_any_case (q_period : option QueryValue) : bool :=
  match q_period with
  | None => true
  | Some (QString p) =>
      String.eqb (JsString.toLowerCase p) "any"
      || String.eqb (JsString.toLowerCase p) "any time"
  | Some (QArray _) => false
  end.

(** The items selected for a predicate on the country and a rule that
    tells when the period does not filter. *)
Definition selected (unfiltered : option QueryValue -> bool)
           (by_country : TriviaItem -> bool) (q_period : option QueryValue)
           (data : list TriviaItem) : list TriviaItem :=
  List.filter
    (fun item => by_country item
                 && (unfiltered q_period || strict_eq q_period (period item)))
    data.

End Contract.

(** A collection of three items, stored at reference 1. *)
Definition sample_data : list TriviaItem :=
  [ mkItem "USA" "1940-1959" "Q1" "A1" None;
    mkItem "Nigeria" "1960-1979" "Q2" "A2" (Some "F2");
    mkItem "USA" "1980-1999" "Q3" "A3" None ].

Definition sample_server : World TriviaItem :=
  mkWorld {[ 1%positive := sample_data ]} sample_random 0.

(** Requests against [sample_server]. *)
Definition sample_query : Query :=
  {[ "country" := QString "usa"; "period" := QString "1980-1999" ]}.

Definition sample_query_multi : Query :=
  {[ "countries" := QString "nigeria,USA"; "period" := QString "Any Time" ]}.

Definition sample_query_upper_any : Query :=
  {[ "country" := QString "usa"; "period" := QString "ANY" ]}.

Definition sample_query_nowhere : Query :=
  {[ "country" := QString "Atlantis" ]}.

(** States of a playback of [sample_data]. *)
Definition sample_question_expiring : Play.PlayState :=
  Play.mkPlayState sample_data 0 false false "" false false 1.

Definition sample_answer_expiring : Play.PlayState :=
  Play.mkPlayState sample_data 0 true false "" false false 1.

Definition sample_question_at_5 : Play.PlayState :=
  Play.mkPlayState sample_data 0 false false "" false false 5.

Definition sample_last_answer_at_4 : Play.PlayState :=
  Play.mkPlayState sample_data 2 true false "" false false 4.

(** The first question, paused with 3 seconds left. *)
Definition sample_paused_at_3 : Play.PlayState :=
  Play.mkPlayState sample_data 0 false false "" true false 3.


(** ** The selection screen [Home] *)

Module Home.

(** The choices offered: [const countries] and [const periods]. *)
Definition countries : list string := ["USA"; "Nigeria"].
Definition periods : list string :=
  ["1940-1959"; "1960-1979"; "1980-1999"; "2000-2019"; "Any Time"].

(** The counts of the preset buttons. *)
Definition presets : list Z := [5; 8; 10; 12; 15].

Record HomeState : Type := mkHomeState {
  selectedCountry : string;
  selectedPeriod : string;
  questionCount : Z;
  highContrast : bool;
  largeText : bool
}.

(** [useState] initial values. *)
Definition initialState : HomeState := mkHomeState "" "" 10 false false.

(** What a handler does to the outside: it speaks, or it navigates. *)
Inductive Output : Type :=
| Narrate (n : Play.Narration)
| RouterPush (url : string).

Definition speak (text : string) : list Output :=
  map Narrate (Play.speak text).

Definition handleCountrySelect (country : string) (s : HomeState)
  : HomeState * list Output :=
  (mkHomeState country (selectedPeriod s) (questionCount s)
               (highContrast s) (largeText s),
   speak country).

Definition handlePeriodSelect (period : string) (s : HomeState)
  : HomeState * list Output :=
  (mkHomeState (selectedCountry s) period (questionCount s)
               (highContrast s) (largeText s),
   speak period).

Definition handleQuestionCountChange (count : Z) (s : HomeState)
  : HomeState * list Output :=
  (mkHomeState (selectedCountry s) (selectedPeriod s) count
               (highContrast s) (largeText s),
   speak (pretty count ++ " questions")).

(** The period as it is written into the URL. *)
Definition periodParam (s : HomeState) : string :=
  if String.eqb (selectedPeriod s) "Any Time" then "any" else selectedPeriod s.

(** The URL of the playback screen for the choices of [s]. *)
Definition playUrl (s : HomeState) : string :=
  "/play?country=" ++ selectedCountry s ++ "&period=" ++ periodParam s
  ++ "&count=" ++ pretty (questionCount s).

(** A string used as a condition: the empty string is falsy. *)
Definition chosen (v : string) : bool := negb (String.eqb v "").

Definition handleStart (s : HomeState) : HomeState * list Output :=
  if chosen (selectedCountry s) && chosen (selectedPeriod s) then
    (s, (speak ("Starting trivia with " ++ pretty (questionCount s) ++ " questions")
         ++ [RouterPush (playUrl s)])%list)
  else (s, []).

Definition handleRepeatInstructions (s : HomeState) : HomeState * list Output :=
  (s, speak "Welcome to World Trivia TV. Choose a country: USA or Nigeria. Then choose a time period. Select how many questions you want, from 5 to 15. Finally, press the Start Trivia button.").

(** The controls of the screen. *)
Inductive Event : Type :=
| ToggleContrast
| ToggleLargeText
| RepeatInstructions
| ClickCountry (country : string)
| ClickPeriod (period : string)
| ClickDecrease
| ClickIncrease
| ClickPreset (count : Z)
| ClickStart.

(** A button exists for each element of the three lists, and the Start
    button is disabled until a country and a period are selected. *)
Definition enabled (ev : Event) (s : HomeState) : bool :=
  match ev with
  | ClickCountry c => bool_decide (c ∈ countries)
  | ClickPeriod p => bool_decide (p ∈ periods)
  | ClickPreset n => bool_decide (n ∈ presets)
  | ClickStart => chosen (selectedCountry s) && chosen (selectedPeriod s)
  | _ => true
  end.

Definition handle (ev : Event) (s : HomeState) : HomeState * list Output :=
  match ev with
  | ToggleContrast =>
      (mkHomeState (selectedCountry s) (selectedPeriod s) (questionCount s)
                   (negb (highContrast s)) (largeText s), [])
  | ToggleLargeText =>
      (mkHomeState (selectedCountry s) (selectedPeriod s) (questionCount s)
                   (highContrast s) (negb (largeText s)), [])
  | RepeatInstructions => handleRepeatInstructions s
  | ClickCountry c => handleCountrySelect c s
  | ClickPeriod p => handlePeriodSelect p s
  | ClickDecrease => handleQuestionCountChange (Z.max 5 (questionCount s - 1)) s
  | ClickIncrease => handleQuestionCountChange (Z.min 15 (questionCount s + 1)) s
  | ClickPreset n => handleQuestionCountChange n s
  | ClickStart => handleStart s
  end.

(** The state after the events [evs], if each is enabled in its turn. *)
Fixpoint run (evs : list Event) (s : HomeState) : option HomeState :=
  match evs with
  | [] => Some s
  | ev :: evs' => if enabled ev s then run evs' (fst (handle ev s)) else None
  end.

(** The URLs that a list of outputs navigates to. *)
Definition pushed (out : list Output) : list string :=
  omap (fun o => match o with RouterPush url => Some url | _ => None end) out.

End Home.

(** What holds of the choices on the selection screen. *)
Definition home_invariant (s : Home.HomeState) : Prop :=
  5 <= Home.questionCount s <= 15
  /\ (Home.selectedCountry s = "" \/ Home.selectedCountry s ∈ Home.countries)
  /\ (Home.selectedPeriod s = "" \/ Home.selectedPeriod s ∈ Home.periods).

(** A selection made with three clicks. *)
Definition sample_home_events : list Home.Event :=
  [Home.ClickCountry "Nigeria"; Home.ClickPeriod "Any Time"; Home.ClickIncrease].

Definition sample_home : Home.HomeState :=
  Home.mkHomeState "Nigeria" "Any Time" 11 false false.

(** The three shapes of an answer of the retrieval handlers over the
    collection [data]. *)
Definition answer_shape (data : list TriviaItem) (r : Response) : Prop :=
  (status r = 200 /\ exists items, body r = Items items
                                   /\ forall x, x ∈ items -> x ∈ data)
  \/ (status r = 400 /\ exists e, body r = ErrorBody e)
  \/ (status r = 500
      /\ body r = ErrorBody "Internal server error while fetching trivia").

(** A request that repeats the country: [?country=USA&country=Nigeria]. *)
Definition sample_query_repeated : Query :=
  {[ "country" := QArray ["USA"; "Nigeria"] ]}.

(** Requests that repeat the period, or the countries. *)
Definition sample_query_repeated_period : Query :=
  {[ "country" := QString "usa"; "period" := QArray ["1940-1959"; "any"] ]}.

Definition sample_query_repeated_countries : Query :=
  {[ "countries" := QArray ["USA"; "Nigeria"] ]}.

(** A server whose collection is empty. *)
Definition sample_empty_server : World TriviaItem :=
  mkWorld {[ 1%positive := [] ]} sample_random 0.

(** How often the character [sep] occurs in [s]. *)
Fixpoint occurrences (sep : ascii) (s : string) : nat :=
  match s with
  | EmptyString => 0
  | String c s' => ((if Ascii.eqb c sep then 1 else 0) + occurrences sep s')%nat
  end.

(** The same request as [sample_query], with the country in upper case. *)
Definition sample_query_upper : Query :=
  {[ "country" := QString "USA"; "period" := QString "1980-1999" ]}.

(** A playback of one item, and its state after "next" has ended it. *)
Definition sample_single : list TriviaItem :=
  [mkItem "USA" "1940-1959" "Q1" "A1" (Some "F1")].

Definition sample_single_ended : Play.PlayState :=
  Play.mkPlayState sample_single 0 false false "" false true 8.

(** The first answer of [sample_data], 4 seconds before the next item. *)
Definition sample_answer_at_4 : Play.PlayState :=
  Play.mkPlayState sample_data 0 true false "" false false 4.

(** The message of a failed load, shown and spoken. *)
Definition loadFailedMessage : string :=
  "Failed to load trivia. Please check your connection and try again.".
Definition loadFailedSpoken : string :=
  "Failed to load trivia. Please go back to the menu and try again.".

(** The seconds that the screen can display. *)
Definition countdown_bounds (s : Play.PlayState) : Prop :=
  0 <= Play.countdown s <= 8
  /\ (Play.showAnswer s = true -> Play.countdown s <= 6)
  /\ (Play.hasEnded s = false -> 1 <= Play.countdown s).


Definition finishedText : string :=
  "Trivia has finished. You can replay from the beginning or go back to the menu.".

(** The request of [sample_query] for the variant of the route. *)
Definition sample_query_one_of_many : Query :=
  {[ "countries" := QString "usa"; "period" := QString "1980-1999" ]}.

(** An item whose fun fact is the empty string, and a playback of it:
    its question about to expire, and its answer showing. *)
Definition sample_blank_fact : TriviaItem :=
  mkItem "USA" "1940-1959" "Q1" "A1" (Some "").

Definition sample_blank_question : Play.PlayState :=
  Play.mkPlayState [sample_blank_fact] 0 false false "" false false 1.

Definition sample_blank_answer : Play.PlayState :=
  Play.mkPlayState [sample_blank_fact] 0 true false "" false false 4.
(** ** Properties of the store operations *)

Section ArrayFacts.
Context {T : Type}.
Implicit Types (w : World T) (l : list T) (a : loc).

Lemma world_eta w : mkWorld (heap w) (random w) (calls w) = w.
Proof. by destruct w. Qed.

Lemma bind_Ok {A B} (m : M T A) (k : A -> M T B) w x w' :
  m w = Ok x w' -> bind m k w = k x w'.
Proof. unfold bind. by intros ->. Qed.

Lemma array_contents_Ok a w l :
  heap w !! a = Some l -> array_contents a w = Ok l w.
Proof. unfold array_contents. by intros ->. Qed.

Lemma array_get_Ok a w l (n : nat) x :
  heap w !! a = Some l -> l !! n = Some x ->
  array_get a (Z.of_nat n) w = Ok x w.
Proof.
  intros Ha Hn. unfold array_get.
  rewrite (bind_Ok _ _ _ _ _ (array_contents_Ok _ _ _ Ha)).
  destruct (Z.leb_spec 0 (Z.of_nat n)); [|lia].
  by rewrite Nat2Z.id, Hn.
Qed.

Lemma array_set_Ok a w l (n : nat) x :
  heap w !! a = Some l -> (n < length l)%nat ->
  array_set a (Z.of_nat n) x w
  = Ok tt (set_heap (<[a := <[n := x]> l]> (heap w)) w).
Proof.
  intros Ha Hn. unfold array_set. rewrite Ha.
  destruct (Z.leb_spec 0 (Z.of_nat n)); [|lia].
  destruct (Z.ltb_spec (Z.of_nat n) (Z.of_nat (length l))); [|lia].
  by rewrite Nat2Z.id.
Qed.

Lemma array_new_fresh l w :
  heap w !! fresh (dom (heap w)) = None.
Proof. apply not_elem_of_dom, is_fresh. Qed.

End ArrayFacts.

(** ** Properties of [Math.floor(Math.random() * (i + 1))] *)

Module JsNumberFacts.
Import JsNumber.

Lemma round53_small m : m < 2 ^ 53 -> round53 m = m.
Proof.
  intros H. unfold round53. destruct (Z.ltb_spec m (2 ^ 53)); [done|lia].
Qed.

(** Rounding moves an integer by at most a [2^-53]-th of itself. *)
Lemma round53_error m :
  0 <= m -> 2 ^ 53 * Z.abs (round53 m - m) <= m.
Proof.
  intros Hm. unfold round53.
  destruct (Z.ltb_spec m (2 ^ 53)) as [Hs|Hl].
  { rewrite Z.sub_diag. simpl. lia. }
  assert (Hpos : 0 < m) by lia.
  destruct (Z.log2_spec m Hpos) as [Hlo _].
  assert (Hlog : 53 <= Z.log2 m) by (apply Z.log2_le_pow2; lia).
  set (e := Z.log2 m - 52) in *.
  assert (He : 1 <= e) by (subst e; lia).
  set (half := 2 ^ (e - 1)).
  assert (Hhalf : 0 < half) by (apply Z.pow_pos_nonneg; lia).
  assert (H2e : 2 ^ e = 2 * half).
  { subst half. rewrite <- Z.pow_succ_r by lia. f_equal. lia. }
  assert (Hm2 : 2 ^ 53 * half <= m).
  { subst half. rewrite <- Z.pow_add_r by lia.
    replace (53 + (e - 1)) with (Z.log2 m) by (subst e; lia). done. }
  rewrite H2e.
  pose proof (Z.div_mod m (2 * half) ltac:(lia)) as Hdm.
  pose proof (Z.mod_pos_bound m (2 * half) ltac:(lia)) as Hrem.
  set (q := m / (2 * half)) in *. set (rem := m mod (2 * half)) in *.
  set (X := 2 * half * q) in *.
  assert (HX : forall c, (q + c) * (2 * half) = X + c * (2 * half)) by (intros; subst X; lia).
  assert (HX0 : q * (2 * half) = X) by (subst X; lia).
  change (2 ^ 53) with 9007199254740992 in *.
  destruct (Z.ltb_spec rem half).
  - rewrite HX0. lia.
  - destruct (Z.ltb_spec half rem).
    + rewrite HX. lia.
    + destruct (Z.even q); [rewrite HX0 | rewrite HX]; lia.
Qed.

Lemma round53_nonneg m : 0 <= m -> 0 <= round53 m.
Proof. intros Hm. pose proof (round53_error m Hm). lia. Qed.

Lemma round53_upper m : 0 <= m -> 2 ^ 53 * round53 m <= (2 ^ 53 + 1) * m.
Proof. intros Hm. pose proof (round53_error m Hm). lia. Qed.

Lemma round53_lower m : 0 <= m -> (2 ^ 53 - 1) * m <= 2 ^ 53 * round53 m.
Proof. intros Hm. pose proof (round53_error m Hm). lia. Qed.

Lemma to_double_exact z : Z.abs z <= 2 ^ 53 -> to_double z = z.
Proof.
  intros Hz. unfold to_double.
  assert (E : round53 (Z.abs z) = Z.abs z).
  { destruct (decide (Z.abs z = 2 ^ 53)) as [->|]; [by vm_compute|].
    apply round53_small. lia. }
  rewrite E.
  destruct (Z.leb_spec (2 ^ 1024) (Z.abs z)) as [Hbig|_].
  - assert (2 ^ 53 < 2 ^ 1024) by (apply Z.pow_lt_mono_r; lia). lia.
  - lia.
Qed.

Lemma bits53_range (r : Q) :
  (0 <= r)%Q -> (r < 1)%Q -> 0 <= bits53 r < 2 ^ 53.
Proof.
  intros H0 H1. unfold bits53.
  assert (Hn : (0 < inject_Z (2 ^ 53))%Q) by done.
  split.
  - rewrite <- (Qfloor_Z 0). apply Qfloor_resp_le.
    apply Qmult_le_0_compat; [done | by apply Qlt_le_weak].
  - rewrite Zlt_Qlt. eapply Qle_lt_trans; [apply Qfloor_le|].
    rewrite <- (Qmult_1_l (inject_Z (2 ^ 53))) at 2.
    by apply Qmult_lt_compat_r.
Qed.

End JsNumberFacts.

Lemma pick_unfold (m : Z) (i : nat) :
  pick m i = JsNumber.round53 (m * (Z.of_nat i + 1)) / 2 ^ 53.
Proof. reflexivity. Qed.

(** The index picked at position [i] is at or before [i]. *)
Lemma pick_range (m : Z) (i : nat) :
  0 <= m < 2 ^ 53 -> 0 <= pick m i <= Z.of_nat i.
Proof.
  intros Hm. rewrite pick_unfold.
  set (n := Z.of_nat i + 1). assert (Hn : 1 <= n) by (subst n; lia).
  assert (HK : 0 <= m * n) by nia.
  pose proof (JsNumberFacts.round53_nonneg _ HK) as H0.
  pose proof (JsNumberFacts.round53_upper _ HK) as Hup.
  assert (Hmn : m * n <= (2 ^ 53 - 1) * n) by nia.
  set (R := JsNumber.round53 (m * n)) in *. set (K := m * n) in *.
  change (2 ^ 53) with 9007199254740992 in *.
  split; [apply Z.div_pos; lia|].
  assert (R / 9007199254740992 < n); [|lia].
  apply Z.div_lt_upper_bound; lia.
Qed.

(** The index picked is [k] for the draws of the interval
    [[k / (i + 1), (k + 1) / (i + 1))], up to the relative error of the
    rounded product: the [i + 1] indices have intervals of the same
    width within [2^-53]. *)
Lemma pick_interval (m : Z) (i : nat) (k : Z) :
  0 <= m ->
  let r := Qmake m (2 ^ 53) in
  let n := inject_Z (Z.of_nat i + 1) in
  (pick m i = k ->
     (inject_Z k <= r * n * (1 + epsilon)
      /\ r * n * (1 - epsilon) < inject_Z (k + 1))%Q)
  /\ ((inject_Z k <= r * n * (1 - epsilon)
       /\ r * n * (1 + epsilon) < inject_Z (k + 1))%Q ->
      pick m i = k).
Proof.
  intros Hm r n. rewrite pick_unfold.
  assert (HK : 0 <= m * (Z.of_nat i + 1)) by nia.
  pose proof (JsNumberFacts.round53_upper _ HK) as Hup.
  pose proof (JsNumberFacts.round53_lower _ HK) as Hlo.
  set (R := JsNumber.round53 (m * (Z.of_nat i + 1))) in *.
  set (K := m * (Z.of_nat i + 1)) in *.
  assert (Eplus : (r * n * (1 + epsilon) == Qmake (K * (2 ^ 53 + 1)) (2 ^ 106))%Q).
  { subst r n K. unfold Qeq, epsilon. simpl. lia. }
  assert (Eminus : (r * n * (1 - epsilon) == Qmake (K * (2 ^ 53 - 1)) (2 ^ 106))%Q).
  { subst r n K. unfold Qeq, epsilon. simpl. lia. }
  rewrite Eplus, Eminus. unfold Qle, Qlt. cbn [Qnum Qden inject_Z].
  change (Z.pos (2 ^ 106)) with (2 ^ 53 * 2 ^ 53).
  change (2 ^ 53) with 9007199254740992 in *.
  split.
  - intros <-.
    pose proof (Z.div_mod R 9007199254740992 ltac:(lia)) as Hdm.
    pose proof (Z.mod_pos_bound R 9007199254740992 ltac:(lia)) as Hrem.
    lia.
  - intros [H1 H2]. symmetry. apply Z.div_unique with (r := R - 9007199254740992 * k).
    + left. lia.
    + lia.
Qed.

(** Where the rounding shows: for the draw [6004799503160661 / 2^53]
    (0.6666666666666666) the exact product with 3 is [2 - 2^-53], whose
    floor would be 1, but as a double it is 2; and for the 52-bit draw
    [1228254443828317 / 2^52] the product with 11 rounds up to 3. *)
Example pick_rounds_the_product :
  pick 6004799503160661 2 = 2
  /\ 6004799503160661 * 3 / 2 ^ 53 = 1
  /\ pick (2 * 1228254443828317) 10 = 3
  /\ 2 * 1228254443828317 * 11 / 2 ^ 53 = 2.
Proof. by vm_compute. Qed.

(** ** [shuffleArray] computes the Fisher–Yates shuffle of a copy *)

Section ShuffleFacts.
Context {T : Type}.
Implicit Types (w : World T) (l : list T) (a : loc).

Lemma swap_at_length l i j : length (swap_at l i j) = length l.
Proof.
  unfold swap_at. destruct (l !! i), (l !! j); try done.
  by rewrite !length_insert.
Qed.

Lemma swap_at_perm l i j : swap_at l i j ≡ₚ l.
Proof.
  unfold swap_at.
  destruct (l !! i) as [y|] eqn:Hi, (l !! j) as [x|] eqn:Hj; try done.
  by apply Permutation_insert_swap.
Qed.

Lemma fy_from_length choice i l : length (fy_from choice i l) = length l.
Proof.
  revert l. induction i as [|i IH]; intros l; simpl; [done|].
  by rewrite IH, swap_at_length.
Qed.

Lemma fy_from_perm choice i l : fy_from choice i l ≡ₚ l.
Proof.
  revert l. induction i as [|i IH]; intros l; simpl; [done|].
  by rewrite IH, swap_at_perm.
Qed.

Lemma fy_from_ext c1 c2 i l :
  (forall k, (1 <= k <= i)%nat -> c1 k = c2 k) ->
  fy_from c1 i l = fy_from c2 i l.
Proof.
  revert l. induction i as [|i IH]; intros l Hc; simpl; [done|].
  rewrite (Hc (S i)) by lia. apply IH. intros k Hk. apply Hc. lia.
Qed.

Lemma drawn_le w last i : random_ok w -> (drawn w last i <= i)%nat.
Proof.
  intros Hr. unfold drawn.
  destruct (Hr (calls w + (last - i))%nat) as [H0 H1].
  pose proof (pick_range _ i (JsNumberFacts.bits53_range _ H0 H1)). lia.
Qed.

(** The loop entered at index [i] on an array that holds [l]. *)
Lemma shuffle_loop_spec a i : forall w l,
  heap w !! a = Some l -> (i < length l)%nat -> random_ok w ->
  shuffle_loop a i w
  = Ok tt (mkWorld (<[a := fy_from (drawn w i) i l]> (heap w))
                   (random w) (calls w + i)).
Proof.
  induction i as [|i IH]; intros w l Ha Hi Hr.
  - simpl. unfold ret. rewrite Nat.add_0_r, insert_id by done.
    by rewrite world_eta.
  - assert (Hj := drawn_le w (S i) (S i) Hr).
    destruct (Hr (calls w)) as [H0 H1].
    pose proof (pick_range _ (S i) (JsNumberFacts.bits53_range _ H0 H1)) as Hp.
    unfold drawn in Hj. rewrite Nat.sub_diag, Nat.add_0_r in Hj.
    set (m := JsNumber.bits53 (random w (calls w))) in *.
    set (j := Z.to_nat (pick m (S i))) in *.
    destruct (lookup_lt_is_Some_2 l j) as [x Hx]; [lia|].
    destruct (lookup_lt_is_Some_2 l (S i)) as [y Hy]; [lia|].
    set (w1 := mkWorld (heap w) (random w) (S (calls w))).
    cbn [shuffle_loop].
    rewrite (bind_Ok _ _ w (JsNumber.mkDouble m (-53)) w1) by done.
    fold (pick m (S i)).
    replace (pick m (S i)) with (Z.of_nat j) by (subst j; lia).
    rewrite (bind_Ok _ _ _ _ _ (array_get_Ok a w1 l j x Ha Hx)).
    rewrite (bind_Ok _ _ _ _ _ (array_get_Ok a w1 l (S i) y Ha Hy)).
    rewrite (bind_Ok _ _ _ _ _ (array_set_Ok a w1 l (S i) x Ha Hi)).
    set (w2 := set_heap _ w1).
    assert (Ha2 : heap w2 !! a = Some (<[S i := x]> l))
      by (subst w2; simpl; apply lookup_insert_eq).
    rewrite (bind_Ok _ _ _ _ _
               (array_set_Ok a w2 _ j y Ha2 ltac:(rewrite length_insert; lia))).
    set (w3 := set_heap _ w2).
    assert (Ha3 : heap w3 !! a = Some (swap_at l (S i) j)).
    { subst w3. simpl. rewrite lookup_insert_eq. unfold swap_at.
      by rewrite Hy, Hx. }
    rewrite (IH w3 _ Ha3) by (rewrite ?swap_at_length; try lia; done).
    f_equal. subst w3 w2 w1. simpl. rewrite !insert_insert_eq.
    f_equal; [|lia]. f_equal. simpl.
    replace (drawn w (S i) (S i)) with j
      by (unfold drawn; by rewrite Nat.sub_diag, Nat.add_0_r).
    apply fy_from_ext. intros k Hk. unfold drawn, set_heap.
    cbn [calls random].
    replace (S (calls w) + (i - k))%nat with (calls w + (S i - k))%nat by lia.
    done.
Qed.

(** [shuffleArray] leaves the store as it was, but for one new array,
    which holds the Fisher–Yates shuffle of the argument's elements for
    the choices drawn from [Math.random]. *)
Lemma shuffleArray_spec array w l :
  heap w !! array = Some l -> random_ok w ->
  let shuffled := fresh (dom (heap w)) in
  shuffleArray array w
  = Ok shuffled
       (mkWorld (<[shuffled := fisher_yates (drawn w (length l - 1)) l]> (heap w))
                (random w) (calls w + (length l - 1))).
Proof.
  intros Ha Hr shuffled. unfold shuffleArray, array_spread.
  rewrite (bind_Ok _ _ w shuffled (set_heap (<[shuffled := l]> (heap w)) w)).
  2:{ by rewrite (bind_Ok _ _ _ _ _ (array_contents_Ok _ _ _ Ha)). }
  set (w1 := set_heap _ w).
  assert (Ha1 : heap w1 !! shuffled = Some l) by (subst w1; simpl; apply lookup_insert_eq).
  unfold array_length.
  rewrite (bind_Ok _ _ w1 (Z.of_nat (length l)) w1).
  2:{ by rewrite (bind_Ok _ _ _ _ _ (array_contents_Ok _ _ _ Ha1)). }
  replace (Z.to_nat (Z.of_nat (length l) - 1)) with (length l - 1)%nat by lia.
  destruct l as [|x0 l0].
  - simpl. unfold bind, ret, set_heap. subst w1. simpl.
    by rewrite Nat.add_0_r.
  - assert (Hlt : (length (x0 :: l0) - 1 < length (x0 :: l0))%nat) by (simpl; lia).
    rewrite (bind_Ok _ _ _ _ _ (shuffle_loop_spec shuffled _ w1 _ Ha1 Hlt Hr)).
    unfold ret, fisher_yates. subst w1. simpl.
    by rewrite insert_insert_eq.
Qed.

End ShuffleFacts.

Lemma sample_random_ok : random_ok sample_world.
Proof.
  intros k. simpl. unfold sample_random, Qle, Qlt. simpl.
  pose proof (Z.mod_pos_bound (Z.of_nat k) 4). lia.
Qed.

(** C5. For every input array, [shuffleArray] returns an array of the same
    length that is a permutation of the input (the same multiset of
    elements), and it is the Fisher–Yates shuffle: from the last index down
    to 1, the element at index [i] is exchanged with the one at an index
    at or before [i]. That index is [Math.floor(r * (i + 1))] for the
    draw [r] of [Math.random], a double in [[0, 1)]: it is [k] for the
    draws of [[k / (i + 1), (k + 1) / (i + 1))], one of [i + 1] intervals
    of equal width, up to the relative error [2^-53] of the rounded
    product. *)
Theorem shuffleArray_is_fisher_yates_permutation
    (T : Type) (w : World T) (array : loc) (l : list T) :
  heap w !! array = Some l -> random_ok w ->
  exists shuffled w' l',
    shuffleArray array w = Ok shuffled w'
    /\ heap w' !! shuffled = Some l'
    /\ length l' = length l
    /\ l' ≡ₚ l
    /\ l' = fisher_yates (drawn w (length l - 1)) l
    /\ choice_ok (drawn w (length l - 1)) (length l)
    /\ forall i k : nat,
         let r := draw w (calls w + (length l - 1 - i)) in
         let n := inject_Z (Z.of_nat i + 1) in
         (0 <= r /\ r < 1)%Q
         /\ (drawn w (length l - 1) i = k ->
             (inject_Z (Z.of_nat k) <= r * n * (1 + epsilon)
              /\ r * n * (1 - epsilon) < inject_Z (Z.of_nat k + 1))%Q)
         /\ ((inject_Z (Z.of_nat k) <= r * n * (1 - epsilon)
              /\ r * n * (1 + epsilon) < inject_Z (Z.of_nat k + 1))%Q ->
             drawn w (length l - 1) i = k).
Proof.
  intros Ha Hr.
  eexists _, _, _. split; [by apply shuffleArray_spec|].
  split; [simpl; apply lookup_insert_eq|].
  split; [apply fy_from_length|].
  split; [apply fy_from_perm|].
  split; [done|].
  split; [intros i _; by apply drawn_le|].
  intros i k r n.
  destruct (Hr (calls w + (length l - 1 - i))%nat) as [H0 H1].
  pose proof (JsNumberFacts.bits53_range _ H0 H1) as Hm.
  pose proof (pick_range _ i Hm) as Hp.
  destruct (pick_interval _ i (Z.of_nat k) (proj1 Hm)) as [Hto Hfrom].
  split.
  - subst r. unfold draw, Qle, Qlt. cbn [Qnum Qden].
    change (Z.pos (2 ^ 53)) with (2 ^ 53). lia.
  - unfold drawn. split.
    + intros E. apply Hto. lia.
    + intros Hin. specialize (Hfrom Hin). lia.
Qed.

Lemma shuffleArray_is_fisher_yates_permutation_witness :
  exists shuffled w' l',
    shuffleArray 1%positive sample_world = Ok shuffled w'
    /\ heap w' !! shuffled = Some l'
    /\ length l' = 4%nat
    /\ l' ≡ₚ [10; 20; 30; 40]%nat
    /\ l' = fisher_yates (drawn sample_world 3) [10; 20; 30; 40]%nat
    /\ choice_ok (drawn sample_world 3) 4
    /\ forall i k : nat,
         let r := draw sample_world (3 + (3 - i)) in
         let n := inject_Z (Z.of_nat i + 1) in
         (0 <= r /\ r < 1)%Q
         /\ (drawn sample_world 3 i = k ->
             (inject_Z (Z.of_nat k) <= r * n * (1 + epsilon)
              /\ r * n * (1 - epsilon) < inject_Z (Z.of_nat k + 1))%Q)
         /\ ((inject_Z (Z.of_nat k) <= r * n * (1 - epsilon)
              /\ r * n * (1 + epsilon) < inject_Z (Z.of_nat k + 1))%Q ->
             drawn sample_world 3 i = k).
Proof.
  apply (shuffleArray_is_fisher_yates_permutation nat sample_world 1%positive
           [10; 20; 30; 40]%nat).
  - reflexivity.
  - exact sample_random_ok.
Defined.

Example shuffleArray_sample :
  match shuffleArray 1%positive sample_world with
  | Ok shuffled w' => heap w' !! shuffled = Some [20; 30; 10; 40]%nat
  | _ => False
  end.
Proof. vm_compute. reflexivity. Qed.



(** ** The retrieval handlers *)

Section HandlerFacts.
Implicit Types (w : World TriviaItem) (l : list TriviaItem) (a : loc).

Lemma extends_refl w : extends w w.
Proof. by repeat split. Qed.

Lemma extends_trans w1 w2 w3 : extends w1 w2 -> extends w2 w3 -> extends w1 w3.
Proof.
  intros (Hr1 & Hc1 & Hh1) (Hr2 & Hc2 & Hh2).
  repeat split; [congruence | congruence | auto].
Qed.

Lemma extends_random_ok w w' : extends w w' -> random_ok w -> random_ok w'.
Proof. intros (Hr & _ & _) Hok k. rewrite Hr. apply Hok. Qed.

Lemma try_catch_Ok {A} (m : M TriviaItem A) h w x w' :
  m w = Ok x w' -> try_catch m h w = Ok x w'.
Proof. unfold try_catch. by intros ->. Qed.

Lemma filter_list_pure (p : TriviaItem -> M TriviaItem bool) f l w :
  (forall x w0, p x w0 = Ok (f x) w0) ->
  filter_list p l w = Ok (List.filter f l) w.
Proof.
  intros Hp. induction l as [|x l IH]; [done|].
  cbn [filter_list List.filter].
  rewrite (bind_Ok _ _ _ _ _ (Hp x w)), (bind_Ok _ _ _ _ _ IH).
  unfold ret. by destruct (f x).
Qed.

Lemma array_filter_pure a (p : TriviaItem -> M TriviaItem bool) f w l :
  heap w !! a = Some l ->
  (forall x w0, p x w0 = Ok (f x) w0) ->
  exists a' w',
    array_filter a p w = Ok a' w'
    /\ heap w' !! a' = Some (List.filter f l)
    /\ extends w w'.
Proof.
  intros Ha Hp. unfold array_filter.
  rewrite (bind_Ok _ _ _ _ _ (array_contents_Ok _ _ _ Ha)).
  rewrite (bind_Ok _ _ _ _ _ (filter_list_pure p f l w Hp)).
  eexists _, _. split; [done|]. simpl.
  split; [apply lookup_insert_eq|].
  unfold extends. simpl. split; [done|]. split; [done|]. intros b lb Hb.
  rewrite lookup_insert_ne; [done|].
  intros <-. by rewrite (array_new_fresh l w) in Hb.
Qed.

Lemma filter_all_true {A} (f : A -> bool) (l : list A) :
  (forall x, f x = true) -> List.filter f l = l.
Proof.
  intros Hf. induction l as [|x l IH]; [done|]. simpl. by rewrite Hf, IH.
Qed.

(** The period filter of both routes, for a period that is absent or a
    string. *)
Lemma filter_period_spec q_period a w l :
  heap w !! a = Some l ->
  (forall ps, q_period <> Some (QArray ps)) ->
  exists a' w',
    filter_period q_period a w = Ok a' w'
    /\ heap w' !! a'
       = Some (List.filter
                 (fun item => Contract.period_unfiltered q_period
                              || strict_eq q_period (period item)) l)
    /\ extends w w'.
Proof.
  intros Ha Hstr. unfold filter_period.
  destruct q_period as [[p|ps]|]; [| by destruct (Hstr ps) |].
  - cbn [truthy strict_eq Contract.period_unfiltered].
    destruct (String.eqb p "") eqn:E1; cbn [negb andb orb].
    { exists a, w. rewrite filter_all_true by done. eauto using extends_refl. }
    destruct (String.eqb p "any") eqn:E2; cbn [negb andb orb].
    { exists a, w. rewrite filter_all_true by done. eauto using extends_refl. }
    unfold value_toLowerCase.
    rewrite (bind_Ok _ _ w (JsString.toLowerCase p) w) by done.
    destruct (String.eqb (JsString.toLowerCase p) "any time") eqn:E3; cbn [negb].
    { exists a, w. rewrite filter_all_true by done. eauto using extends_refl. }
    by apply array_filter_pure.
  - exists a, w. cbn. rewrite filter_all_true by done. eauto using extends_refl.
Qed.

(** The tail shared by the two routes: filter on the period, shuffle,
    answer 200 with the contents of the shuffled array. *)
Lemma respond_spec q_period a w l :
  heap w !! a = Some l -> random_ok w ->
  (forall ps, q_period <> Some (QArray ps)) ->
  exists items w',
    (let* filtered := filter_period q_period a in
     let* shuffled := shuffleArray filtered in
     let* items := array_contents shuffled in
     ret (mkResponse 200 (Items items))) w
    = Ok (mkResponse 200 (Items items)) w'
    /\ items ≡ₚ List.filter
                  (fun item => Contract.period_unfiltered q_period
                               || strict_eq q_period (period item)) l
    /\ forall b lb, heap w !! b = Some lb -> heap w' !! b = Some lb.
Proof.
  intros Ha Hr Hstr.
  destruct (filter_period_spec q_period a w l Ha Hstr) as (a1 & w1 & E1 & Ha1 & Hext).
  rewrite (bind_Ok _ _ _ _ _ E1).
  pose proof (extends_random_ok _ _ Hext Hr) as Hr1.
  rewrite (bind_Ok _ _ _ _ _ (shuffleArray_spec a1 w1 _ Ha1 Hr1)).
  set (sh := fresh (dom (heap w1))). set (w2 := mkWorld _ _ _).
  assert (Hsh : heap w2 !! sh = Some (fisher_yates
            (drawn w1 (length (List.filter (fun item =>
               Contract.period_unfiltered q_period
               || strict_eq q_period (period item)) l) - 1))
            (List.filter (fun item => Contract.period_unfiltered q_period
               || strict_eq q_period (period item)) l)))
    by (subst w2; simpl; apply lookup_insert_eq).
  rewrite (bind_Ok _ _ _ _ _ (array_contents_Ok _ _ _ Hsh)).
  eexists _, _. split; [done|]. split; [apply fy_from_perm|].
  intros b lb Hb. destruct Hext as (_ & _ & Hh). apply Hh in Hb.
  subst w2. simpl. rewrite lookup_insert_ne; [done|].
  intros E. subst sh. rewrite <- E in Hb.
  by rewrite (array_new_fresh l w1) in Hb.
Qed.

End HandlerFacts.

Section HandlerSpecs.
Implicit Types (w : World TriviaItem) (data : list TriviaItem) (query : Query).

Lemma filter_filter_and {A} (f g : A -> bool) (l : list A) :
  List.filter g (List.filter f l) = List.filter (fun x => f x && g x) l.
Proof.
  induction l as [|x l IH]; [done|]. simpl.
  destruct (f x); simpl; [|done]. destruct (g x); by rewrite IH.
Qed.

Lemma truthy_string (c : string) : c <> "" -> truthy (Some (QString c)) = true.
Proof. intros Hc. simpl. by apply negb_true_iff, String.eqb_neq. Qed.

(** The route for one country, on a request whose country is a
    non-empty string and whose period is absent or a string. *)
Lemma handler_spec w triviaData data query c :
  heap w !! triviaData = Some data -> random_ok w ->
  query !! "country" = Some (QString c) -> c <> "" ->
  (forall ps, query !! "period" <> Some (QArray ps)) ->
  exists items w',
    ApiTrivia.handler triviaData query w = Ok (mkResponse 200 (Items items)) w'
    /\ items ≡ₚ Contract.selected Contract.period_unfiltered
                  (Contract.country_matches c) (query !! "period") data
    /\ heap w' !! triviaData = Some data.
Proof.
  intros Hd Hr Hc Hne Hp. unfold ApiTrivia.handler.
  rewrite Hc, (truthy_string c Hne). cbn [negb].
  edestruct (array_filter_pure triviaData) as (a1 & w1 & E1 & Ha1 & Hext);
    [exact Hd | |].
  { intros x w0. instantiate (1 := Contract.country_matches c).
    instantiate (1 := fun item =>
      let* c0 := value_toLowerCase (Some (QString c)) in
      ret (String.eqb (JsString.toLowerCase (country item)) c0)).
    reflexivity. }
  destruct (respond_spec (query !! "period") a1 w1 _ Ha1
              (extends_random_ok _ _ Hext Hr) Hp) as (items & w2 & E2 & HP & Hkeep).
  exists items, w2. split.
  - apply try_catch_Ok. by rewrite (bind_Ok _ _ _ _ _ E1).
  - split; [by rewrite HP; unfold Contract.selected; rewrite filter_filter_and|].
    destruct Hext as (_ & _ & Hh). auto.
Qed.

(** The route for a list of countries, under the same conditions. *)
Lemma handler_multi_spec w triviaData data query cs :
  heap w !! triviaData = Some data -> random_ok w ->
  query !! "countries" = Some (QString cs) -> cs <> "" ->
  (forall ps, query !! "period" <> Some (QArray ps)) ->
  exists items w',
    ApiTriviaMulti.handler triviaData query w
    = Ok (mkResponse 200 (Items items)) w'
    /\ items ≡ₚ Contract.selected Contract.period_unfiltered
                  (Contract.countries_match cs) (query !! "period") data
    /\ heap w' !! triviaData = Some data.
Proof.
  intros Hd Hr Hc Hne Hp. unfold ApiTriviaMulti.handler.
  rewrite Hc, (truthy_string cs Hne). cbn [negb].
  edestruct (array_filter_pure triviaData) as (a1 & w1 & E1 & Ha1 & Hext);
    [exact Hd | |].
  { intros x w0. instantiate (1 := Contract.countries_match cs).
    instantiate (1 := fun item =>
      ret (existsb (fun c0 =>
             String.eqb (JsString.toLowerCase (country item))
                        (JsString.toLowerCase c0)) (JsString.split "," cs))).
    reflexivity. }
  destruct (respond_spec (query !! "period") a1 w1 _ Ha1
              (extends_random_ok _ _ Hext Hr) Hp) as (items & w2 & E2 & HP & Hkeep).
  exists items, w2. split.
  - apply try_catch_Ok. cbn [value_split].
    rewrite (bind_Ok _ _ w (JsString.split "," cs) w) by done.
    by rewrite (bind_Ok _ _ _ _ _ E1).
  - split; [by rewrite HP; unfold Contract.selected; rewrite filter_filter_and|].
    destruct Hext as (_ & _ & Hh). auto.
Qed.

End HandlerSpecs.

(** C4 (amended). For a request whose country (or comma-separated
    countries) value is a non-empty string, and whose period is absent or
    a string, the handler answers 200 with exactly the items of the
    collection, in some order, whose country equals the requested one
    case-insensitively (in the variant: any of the comma-separated
    entries), restricted to the items whose period equals the requested
    period exactly, unless the period is absent or empty, is exactly
    "any", or is "any time" in any letter case; then the period does not
    filter. The collection itself is left as it was. *)
Theorem handler_returns_the_selected_items
    (w : World TriviaItem) (triviaData : loc) (data : list TriviaItem)
    (query : Query) :
  heap w !! triviaData = Some data -> random_ok w ->
  (forall ps, query !! "period" <> Some (QArray ps)) ->
  (forall c, query !! "country" = Some (QString c) -> c <> "" ->
     exists items w',
       ApiTrivia.handler triviaData query w = Ok (mkResponse 200 (Items items)) w'
       /\ items ≡ₚ Contract.selected Contract.period_unfiltered
                     (Contract.country_matches c) (query !! "period") data
       /\ heap w' !! triviaData = Some data)
  /\ (forall cs, query !! "countries" = Some (QString cs) -> cs <> "" ->
     exists items w',
       ApiTriviaMulti.handler triviaData query w
       = Ok (mkResponse 200 (Items items)) w'
       /\ items ≡ₚ Contract.selected Contract.period_unfiltered
                     (Contract.countries_match cs) (query !! "period") data
       /\ heap w' !! triviaData = Some data).
Proof.
  intros Hd Hr Hp. split.
  - intros c Hc Hne. by apply handler_spec.
  - intros cs Hc Hne. by apply handler_multi_spec.
Qed.

Lemma handler_returns_the_selected_items_witness :
  (exists items w',
     ApiTrivia.handler 1%positive sample_query sample_server
     = Ok (mkResponse 200 (Items items)) w'
     /\ items ≡ₚ Contract.selected Contract.period_unfiltered
                   (Contract.country_matches "usa") (sample_query !! "period")
                   sample_data
     /\ heap w' !! 1%positive = Some sample_data)
  /\ (exists items w',
     ApiTriviaMulti.handler 1%positive sample_query_multi sample_server
     = Ok (mkResponse 200 (Items items)) w'
     /\ items ≡ₚ Contract.selected Contract.period_unfiltered
                   (Contract.countries_match "nigeria,USA")
                   (sample_query_multi !! "period") sample_data
     /\ heap w' !! 1%positive = Some sample_data).
Proof.
  split.
  - apply (handler_returns_the_selected_items sample_server 1%positive
             sample_data sample_query).
    + reflexivity.
    + exact sample_random_ok.
    + intros ps. vm_compute. discriminate.
    + reflexivity.
    + discriminate.
  - apply (handler_returns_the_selected_items sample_server 1%positive
             sample_data sample_query_multi).
    + reflexivity.
    + exact sample_random_ok.
    + intros ps. vm_compute. discriminate.
    + reflexivity.
    + discriminate.
Defined.

Example handler_sample :
  returned (ApiTrivia.handler 1%positive sample_query sample_server)
  = Some (mkResponse 200 (Items [mkItem "USA" "1980-1999" "Q3" "A3" None])).
Proof. vm_compute. reflexivity. Qed.

Example handler_multi_sample :
  returned (ApiTriviaMulti.handler 1%positive sample_query_multi sample_server)
  = Some (mkResponse 200
            (Items [ mkItem "Nigeria" "1960-1979" "Q2" "A2" (Some "F2");
                     mkItem "USA" "1980-1999" "Q3" "A3" None;
                     mkItem "USA" "1940-1959" "Q1" "A1" None ])).
Proof. vm_compute. reflexivity. Qed.

(** C4 as claimed fails: with the sentinel "any" read case-insensitively,
    the period "ANY" would not filter and the request for "usa" would
    return the two USA items; the handler compares with "any" exactly,
    filters on the period "ANY" and returns no item. *)
Lemma handler_any_is_compared_exactly :
  returned (ApiTrivia.handler 1%positive sample_query_upper_any sample_server)
  = Some (mkResponse 200 (Items []))
  /\ ~ (exists items w',
          ApiTrivia.handler 1%positive sample_query_upper_any sample_server
          = Ok (mkResponse 200 (Items items)) w'
          /\ items ≡ₚ Contract.selected Contract.period_unfiltered_any_case
                        (Contract.country_matches "usa")
                        (sample_query_upper_any !! "period") sample_data).
Proof.
  split; [vm_compute; reflexivity|].
  intros (items & w' & E & HP).
  apply (f_equal returned) in E. vm_compute in E.
  injection E as <-. vm_compute in HP.
  by apply Permutation_nil_cons in HP.
Qed.

(** C6 (amended). When the required parameter is missing (absent or
    empty), each handler answers with status 400, never 200, and an error
    body: [Country parameter is required] for the route that reads
    [country], [Countries parameter is required] for the variant that
    reads [countries]. *)
Theorem handler_rejects_a_missing_country
    (w : World TriviaItem) (triviaData : loc) (query : Query) :
  (truthy (query !! "country") = false ->
     ApiTrivia.handler triviaData query w
     = Ok (mkResponse 400 (ErrorBody "Country parameter is required")) w)
  /\ (truthy (query !! "countries") = false ->
     ApiTriviaMulti.handler triviaData query w
     = Ok (mkResponse 400 (ErrorBody "Countries parameter is required")) w)
  /\ (truthy (query !! "country") = false ->
     forall r, returned (ApiTrivia.handler triviaData query w) = Some r ->
               status r = 400 /\ status r <> 200)
  /\ (truthy (query !! "countries") = false ->
     forall r, returned (ApiTriviaMulti.handler triviaData query w) = Some r ->
               status r = 400 /\ status r <> 200).
Proof.
  assert (H1 : truthy (query !! "country") = false ->
     ApiTrivia.handler triviaData query w
     = Ok (mkResponse 400 (ErrorBody "Country parameter is required")) w).
  { intros H. unfold ApiTrivia.handler, try_catch. by rewrite H. }
  assert (H2 : truthy (query !! "countries") = false ->
     ApiTriviaMulti.handler triviaData query w
     = Ok (mkResponse 400 (ErrorBody "Countries parameter is required")) w).
  { intros H. unfold ApiTriviaMulti.handler, try_catch. by rewrite H. }
  repeat split; try done.
  - apply H1 in H. rewrite H in H0. by injection H0 as <-.
  - apply H1 in H. rewrite H in H0. by injection H0 as <-.
  - apply H2 in H. rewrite H in H0. by injection H0 as <-.
  - apply H2 in H. rewrite H in H0. by injection H0 as <-.
Qed.

Lemma handler_rejects_a_missing_country_witness :
  ApiTrivia.handler 1%positive ∅ sample_server
  = Ok (mkResponse 400 (ErrorBody "Country parameter is required")) sample_server
  /\ ApiTriviaMulti.handler 1%positive {[ "countries" := QString "" ]} sample_server
     = Ok (mkResponse 400 (ErrorBody "Countries parameter is required")) sample_server
  /\ (forall r, returned (ApiTrivia.handler 1%positive ∅ sample_server) = Some r ->
                status r = 400 /\ status r <> 200)
  /\ (forall r,
        returned (ApiTriviaMulti.handler 1%positive {[ "countries" := QString "" ]}
                    sample_server) = Some r ->
        status r = 400 /\ status r <> 200).
Proof.
  split; [|split; [|split]].
  - apply (handler_rejects_a_missing_country sample_server 1%positive ∅).
    reflexivity.
  - apply (handler_rejects_a_missing_country sample_server 1%positive
             {[ "countries" := QString "" ]}).
    reflexivity.
  - apply (handler_rejects_a_missing_country sample_server 1%positive ∅).
    reflexivity.
  - apply (handler_rejects_a_missing_country sample_server 1%positive
             {[ "countries" := QString "" ]}).
    reflexivity.
Defined.

(** C6 as claimed fails for the variant: without [countries] it answers
    400, but its error body is not [Country parameter is required]. *)
Lemma handler_multi_names_countries :
  truthy ((∅ : Query) !! "countries") = false
  /\ returned (ApiTriviaMulti.handler 1%positive ∅ sample_server)
     = Some (mkResponse 400 (ErrorBody "Countries parameter is required"))
  /\ returned (ApiTriviaMulti.handler 1%positive ∅ sample_server)
     <> Some (mkResponse 400 (ErrorBody "Country parameter is required")).
Proof.
  split; [reflexivity|]. split; [vm_compute; reflexivity|].
  vm_compute. discriminate.
Qed.

(** ** The playback screen *)

Module PlayFacts.
Import Play.

Lemma currentItem_in_range s :
  0 <= currentIndex s < length_of s -> exists item, currentItem s = Some item.
Proof.
  intros H. unfold currentItem, length_of in *.
  destruct (Z.leb_spec 0 (currentIndex s)); [|lia].
  apply lookup_lt_is_Some_2. lia.
Qed.

Lemma effect_same_deps prev s :
  speakDeps prev = speakDeps s -> speakQuestionEffect prev s = Some (s, []).
Proof. intros H. unfold speakQuestionEffect. by rewrite bool_decide_eq_true_2. Qed.

(** The effect changes nothing but the countdown, which it may set to 8. *)
Lemma effect_state prev s :
  0 <= currentIndex s < length_of s ->
  exists out,
    speakQuestionEffect prev s = Some (s, out)
    \/ (speakQuestionEffect prev s = Some (setCountdown 8 s, out)
        /\ speakDeps prev <> speakDeps s
        /\ isPaused s = false /\ hasEnded s = false /\ showAnswer s = false).
Proof.
  intros Hi. destruct (currentItem_in_range s Hi) as [item Hitem].
  unfold speakQuestionEffect. case_bool_decide as Hd; [by exists []; left|].
  rewrite Hitem.
  destruct (isPaused s) eqn:?, (hasEnded s) eqn:?, (showAnswer s) eqn:?;
    rewrite ?andb_false_r; cbn [negb andb]; try (by exists []; left).
  rewrite !andb_true_r.
  destruct (negb (loading s) && negb (has_error s) && (0 <? length_of s));
    [|by exists []; left].
  eexists. right. by repeat split.
Qed.

(** A tick that does not expire only counts down. *)
Lemma fire_tick_decrement s :
  1 < countdown s -> fire Tick s = Some (setCountdown (countdown s - 1) s, []).
Proof.
  intros H. unfold fire, handle, timerCallback.
  destruct (Z.leb_spec (countdown s) 1); [lia|].
  by rewrite effect_same_deps.
Qed.

(** A tick that expires on a question reveals the answer. *)
Lemma fire_tick_reveal s :
  0 <= currentIndex s < length_of s ->
  countdown s <= 1 -> showAnswer s = false ->
  exists out, fire Tick s = Some (setCountdown 6 (setShowAnswer true s), out).
Proof.
  intros Hi Hc Ha. destruct (currentItem_in_range s Hi) as [item Hitem].
  unfold fire, handle, timerCallback.
  destruct (Z.leb_spec (countdown s) 1); [|lia].
  rewrite Ha, Hitem. cbn [negb].
  unfold speakQuestionEffect. case_bool_decide; [by eexists|].
  cbn [showAnswer setCountdown setShowAnswer negb]. rewrite !andb_false_r.
  by eexists.
Qed.

(** A tick that expires on an answer moves to the next item, if any. *)
Lemma fire_tick_advance s :
  0 <= currentIndex s -> countdown s <= 1 -> showAnswer s = true ->
  currentIndex s < length_of s - 1 ->
  exists out,
    fire Tick s
    = Some (setCountdown 8 (setShowAnswer false
              (setCurrentIndex (currentIndex s + 1) s)), out).
Proof.
  intros Hi Hc Ha Hn.
  unfold fire, handle, timerCallback.
  destruct (Z.leb_spec (countdown s) 1); [|lia].
  rewrite Ha. cbn [negb].
  destruct (Z.ltb_spec (currentIndex s) (length_of s - 1)); [|lia].
  set (s1 := setCountdown 8 _).
  destruct (effect_state s s1) as [out [E|[E _]]];
    [subst s1; unfold length_of in *; simpl; lia | |]; rewrite E; by eexists.
Qed.

(** A tick that expires on the answer of the last item ends playback. *)
Lemma fire_tick_end s :
  countdown s <= 1 -> showAnswer s = true ->
  ~ currentIndex s < length_of s - 1 ->
  exists out, fire Tick s = Some (setCountdown 0 (setHasEnded true s), out).
Proof.
  intros Hc Ha Hn.
  unfold fire, handle, timerCallback.
  destruct (Z.leb_spec (countdown s) 1); [|lia].
  rewrite Ha. cbn [negb].
  destruct (Z.ltb_spec (currentIndex s) (length_of s - 1)); [lia|].
  unfold speakQuestionEffect. case_bool_decide; [by eexists|].
  cbn [hasEnded setCountdown setHasEnded negb]. rewrite !andb_false_r.
  by eexists.
Qed.

Lemma setCountdown_same s : setCountdown (countdown s) s = s.
Proof. by destruct s. Qed.

(** "Next" with an item remaining: straight to the next question. *)
Lemma fire_next_advance s :
  0 <= currentIndex s -> currentIndex s < length_of s - 1 ->
  exists out,
    fire NextQuestion s
    = Some (setCountdown 8 (setShowAnswer false
              (setCurrentIndex (currentIndex s + 1) s)), out).
Proof.
  intros Hi Hn. unfold fire, handle, handleNextQuestion.
  destruct (Z.ltb_spec (currentIndex s) (length_of s - 1)); [|lia].
  set (s1 := setCountdown 8 _).
  destruct (effect_state s s1) as [out [E|[E _]]];
    [subst s1; unfold length_of in *; simpl; lia | |]; rewrite E; by eexists.
Qed.

(** "Next" on the last item: playback ends, nothing else changes. *)
Lemma fire_next_end s :
  ~ currentIndex s < length_of s - 1 ->
  exists out, fire NextQuestion s = Some (setHasEnded true s, out).
Proof.
  intros Hn. unfold fire, handle, handleNextQuestion.
  destruct (Z.ltb_spec (currentIndex s) (length_of s - 1)); [lia|].
  unfold speakQuestionEffect. case_bool_decide; [by eexists|].
  cbn [hasEnded setHasEnded negb]. rewrite !andb_false_r.
  by eexists.
Qed.

(** Pausing changes the pause flag only. *)
Lemma fire_pause s :
  isPaused s = false ->
  exists out, fire PausePlay s = Some (setIsPaused true s, out).
Proof.
  intros Hp. unfold fire, handle, handlePausePlay. rewrite Hp. cbn [negb].
  unfold speakQuestionEffect. case_bool_decide; [by eexists|].
  cbn [isPaused setIsPaused negb]. rewrite !andb_false_r. cbn [andb].
  by eexists.
Qed.

(** Resuming clears the pause flag; the effect that speaks the question
    then runs, and on a question it sets the countdown to 8. *)
Lemma fire_resume s :
  0 <= currentIndex s < length_of s ->
  loading s = false -> error s = "" -> hasEnded s = false ->
  isPaused s = true ->
  exists out,
    fire PausePlay s
    = Some (if showAnswer s then setIsPaused false s
            else setCountdown 8 (setIsPaused false s), out).
Proof.
  intros Hi Hl He Hend Hp.
  destruct (currentItem_in_range s Hi) as [item Hitem].
  unfold fire, handle, handlePausePlay. rewrite Hp. cbn [negb].
  unfold speakQuestionEffect. case_bool_decide as Hd.
  { exfalso. unfold speakDeps in Hd. simpl in Hd. congruence. }
  unfold has_error, length_of, currentItem in *.
  cbn [loading error isPaused hasEnded showAnswer triviaItems currentIndex
       setIsPaused].
  rewrite Hl, He, Hend, Hitem. cbn [negb andb String.eqb].
  destruct (Z.ltb_spec 0 (Z.of_nat (length (triviaItems s)))); [|lia].
  destruct (showAnswer s); by eexists.
Qed.

(** "Repeat" only speaks. *)
Lemma fire_repeat s :
  0 <= currentIndex s < length_of s ->
  exists out, fire Repeat s = Some (s, out).
Proof.
  intros Hi. destruct (currentItem_in_range s Hi) as [item Hitem].
  unfold fire, handle, handleRepeat.
  destruct (Z.eqb_spec (length_of s) 0); [lia|]. rewrite Hitem.
  destruct (showAnswer s); rewrite effect_same_deps by done; by eexists.
Qed.

(** "Replay" starts over at the first question, with the countdown at 8. *)
Lemma fire_replay s :
  0 < length_of s ->
  exists out,
    fire Replay s
    = Some (setCountdown 8 (setIsPaused false (setHasEnded false
              (setShowAnswer false (setCurrentIndex 0 s)))), out).
Proof.
  intros Hn. unfold fire, handle, handleReplay.
  set (s1 := setCountdown 8 _).
  destruct (effect_state s s1) as [out [E|[E _]]];
    [subst s1; unfold length_of in *; simpl; lia | |]; rewrite E; by eexists.
Qed.

Lemma enabled_running s :
  enabled Tick s = true ->
  loading s = false /\ has_error s = false /\ isPaused s = false
  /\ hasEnded s = false.
Proof.
  unfold enabled, timerRunning.
  destruct (loading s), (has_error s), (isPaused s), (hasEnded s);
    rewrite ?orb_true_r; simpl; try discriminate; by repeat split.
Qed.

Lemma has_error_none s : error s = "" -> has_error s = false.
Proof. unfold has_error. by intros ->. Qed.

(** Every step keeps the invariant. *)
Lemma step_invariant items s ev s' :
  invariant items s -> step s ev s' -> invariant items s'.
Proof.
  intros (Hit & Hl & He & Hi & Hc & Hc1) Hstep.
  destruct Hstep as [s ev s' out Hen Hfire].
  assert (Hlen : length_of s = Z.of_nat (length items))
    by (unfold length_of; by rewrite Hit).
  assert (Hi' : 0 <= currentIndex s < length_of s) by lia.
  destruct ev.
  - apply enabled_running in Hen as (_ & _ & Hp & Hend).
    specialize (Hc1 Hend).
    destruct (Z.le_gt_cases (countdown s) 1) as [Hexp|Hexp].
    + destruct (showAnswer s) eqn:Ha.
      * destruct (Z.lt_ge_cases (currentIndex s) (length_of s - 1)) as [Hn|Hn].
        -- destruct (fire_tick_advance s) as [o E]; try done; try lia.
           rewrite E in Hfire. injection Hfire as <- <-.
           unfold invariant; simpl. repeat split; try done; lia.
        -- destruct (fire_tick_end s) as [o E]; try done; try lia.
           rewrite E in Hfire. injection Hfire as <- <-.
           unfold invariant; simpl. repeat split; try done; lia.
      * destruct (fire_tick_reveal s) as [o E]; try done.
        rewrite E in Hfire. injection Hfire as <- <-.
        unfold invariant; simpl. repeat split; try done; lia.
    + rewrite fire_tick_decrement in Hfire by lia. injection Hfire as <- <-.
      unfold invariant; simpl. repeat split; try done; lia.
  - assert (Hend : hasEnded s = false).
    { unfold enabled, screen in Hen. rewrite Hl, (has_error_none s He) in Hen.
      by destruct (hasEnded s). }
    destruct (isPaused s) eqn:Hp.
    + destruct (fire_resume s) as [o E]; try done.
      rewrite E in Hfire. injection Hfire as <- <-.
      specialize (Hc1 Hend).
      destruct (showAnswer s); unfold invariant; simpl;
        repeat split; try done; lia.
    + destruct (fire_pause s) as [o E]; try done.
      rewrite E in Hfire. injection Hfire as <- <-.
      unfold invariant; simpl. repeat split; try done; lia.
  - destruct (fire_repeat s) as [o E]; try done.
    rewrite E in Hfire. injection Hfire as <- <-.
    by unfold invariant.
  - destruct (Z.lt_ge_cases (currentIndex s) (length_of s - 1)) as [Hn|Hn].
    + destruct (fire_next_advance s) as [o E]; try done; try lia.
      rewrite E in Hfire. injection Hfire as <- <-.
      unfold invariant; simpl. repeat split; try done; lia.
    + destruct (fire_next_end s) as [o E]; try lia.
      rewrite E in Hfire. injection Hfire as <- <-.
      unfold invariant; simpl. repeat split; try done; lia.
  - destruct (fire_replay s) as [o E]; try lia.
    rewrite E in Hfire. injection Hfire as <- <-.
    unfold invariant; simpl. repeat split; try done; lia.
Qed.

Lemma playing_invariant items : items <> [] -> invariant items (playing items).
Proof.
  intros Hne. unfold invariant, playing; simpl.
  destruct items; [done|]. simpl. repeat split; try done; lia.
Qed.

(** No handler throws in a state of a playback. *)
Lemma step_progress items s ev :
  invariant items s -> enabled ev s = true -> exists s', step s ev s'.
Proof.
  intros (Hit & Hl & He & Hi & Hc & Hc1) Hen.
  assert (Hi' : 0 <= currentIndex s < length_of s)
    by (unfold length_of; rewrite Hit; lia).
  assert (exists s' out, fire ev s = Some (s', out)) as (s' & out & E);
    [|exists s'; by econstructor].
  destruct ev.
  - destruct (Z.le_gt_cases (countdown s) 1) as [Hexp|Hexp].
    + destruct (showAnswer s) eqn:Ha.
      * destruct (Z.lt_ge_cases (currentIndex s) (length_of s - 1)) as [Hn|Hn].
        -- destruct (fire_tick_advance s) as [o E]; try done; try lia; eauto.
        -- destruct (fire_tick_end s) as [o E]; try done; try lia; eauto.
      * destruct (fire_tick_reveal s) as [o E]; try done; eauto.
    + rewrite fire_tick_decrement by lia. eauto.
  - unfold fire, handle, handlePausePlay.
    destruct (effect_state s (setIsPaused (negb (isPaused s)) s))
      as [o [E|[E _]]]; [done| |]; rewrite E; eauto.
  - destruct (fire_repeat s) as [o E]; eauto.
  - destruct (Z.lt_ge_cases (currentIndex s) (length_of s - 1)) as [Hn|Hn].
    + destruct (fire_next_advance s) as [o E]; try done; try lia; eauto.
    + destruct (fire_next_end s) as [o E]; try lia; eauto.
  - destruct (fire_replay s) as [o E]; try lia; eauto.
Qed.

(** A step either is a Replay, from an ended state to one that has not
    ended, or starts in a state that has not ended. *)
Lemma step_replay_or_live items s ev s' :
  invariant items s -> step s ev s' ->
  (ev = Replay /\ hasEnded s = true /\ hasEnded s' = false)
  \/ (ev <> Replay /\ hasEnded s = false).
Proof.
  intros (Hit & Hl & He & Hi & Hc & Hc1) Hstep.
  destruct Hstep as [s ev s' out Hen Hfire].
  assert (Hscreen : forall sc, screen s = sc ->
            sc = if hasEnded s then FinishedScreen else PlayingScreen).
  { intros sc <-. unfold screen. by rewrite Hl, (has_error_none s He). }
  destruct ev.
  - right. by apply enabled_running in Hen as (_ & _ & _ & Hend).
  - right. simpl in Hen. rewrite (Hscreen _ eq_refl) in Hen.
    by destruct (hasEnded s).
  - right. simpl in Hen. rewrite (Hscreen _ eq_refl) in Hen.
    by destruct (hasEnded s).
  - right. simpl in Hen. rewrite (Hscreen _ eq_refl) in Hen.
    by destruct (hasEnded s).
  - left. simpl in Hen. rewrite (Hscreen _ eq_refl) in Hen.
    destruct (fire_replay s) as [o E];
      [unfold length_of; rewrite Hit; lia|].
    rewrite E in Hfire. injection Hfire as <- <-.
    by destruct (hasEnded s).
Qed.

(** What makes [hasEnded] turn true. *)
Lemma step_ending items s ev s' :
  invariant items s -> step s ev s' ->
  (hasEnded s = false /\ hasEnded s' = true)
  <-> ((ev = Tick /\ showAnswer s = true /\ expires s = true
        /\ currentIndex s = Z.of_nat (length items) - 1)
       \/ (ev = NextQuestion
           /\ currentIndex s = Z.of_nat (length items) - 1)).
Proof.
  intros Hinv Hstep.
  destruct (step_replay_or_live _ _ _ _ Hinv Hstep)
    as [(-> & Hend & Hend')|(Hne & Hend)].
  { split; [intros [? _]; congruence | intros [[? _]|[? _]]; discriminate]. }
  destruct Hinv as (Hit & Hl & He & Hi & Hc & Hc1).
  destruct Hstep as [s ev s' out Hen Hfire].
  assert (Hlen : length_of s = Z.of_nat (length items))
    by (unfold length_of; by rewrite Hit).
  assert (Hi' : 0 <= currentIndex s < length_of s) by lia.
  unfold expires.
  destruct ev; [| | | |done].
  - destruct (Z.le_gt_cases (countdown s) 1) as [Hexp|Hexp].
    + destruct (showAnswer s) eqn:Ha.
      * destruct (Z.lt_ge_cases (currentIndex s) (length_of s - 1)) as [Hn|Hn].
        -- destruct (fire_tick_advance s) as [o E]; try done; try lia.
           rewrite E in Hfire. injection Hfire as <- <-. simpl.
           split; [intros [_ ?]; congruence|].
           intros [(_ & _ & _ & ?)|[? _]]; [lia|discriminate].
        -- destruct (fire_tick_end s) as [o E]; try done; try lia.
           rewrite E in Hfire. injection Hfire as <- <-. simpl.
           split; [|done]. intros _. left.
           repeat split; [by apply Z.leb_le | lia].
      * destruct (fire_tick_reveal s) as [o E]; try done.
        rewrite E in Hfire. injection Hfire as <- <-. simpl.
        split; [intros [_ ?]; congruence|].
        intros [(_ & ? & _)|[? _]]; discriminate.
    + rewrite fire_tick_decrement in Hfire by lia. injection Hfire as <- <-.
      simpl. split; [intros [_ ?]; congruence|].
      intros [(_ & _ & Hx & _)|[? _]]; [|discriminate].
      apply Z.leb_le in Hx. lia.
  - assert (exists o, fire PausePlay s = Some (setIsPaused (negb (isPaused s)) s, o)
                      \/ fire PausePlay s
                         = Some (setCountdown 8 (setIsPaused (negb (isPaused s)) s), o))
      as (o & [E|E]).
    { unfold fire, handle, handlePausePlay.
      destruct (effect_state s (setIsPaused (negb (isPaused s)) s))
        as [o [E|[E _]]]; [done| |]; rewrite E; eauto. }
    all: rewrite E in Hfire; injection Hfire as <- <-; simpl.
    all: split; [intros [_ ?]; congruence|].
    all: intros [(? & _)|[? _]]; discriminate.
  - destruct (fire_repeat s) as [o E]; try done.
    rewrite E in Hfire. injection Hfire as <- <-.
    split; [intros [_ ?]; congruence|].
    intros [(? & _)|[? _]]; discriminate.
  - destruct (Z.lt_ge_cases (currentIndex s) (length_of s - 1)) as [Hn|Hn].
    + destruct (fire_next_advance s) as [o E]; try done; try lia.
      rewrite E in Hfire. injection Hfire as <- <-. simpl.
      split; [intros [_ ?]; congruence|].
      intros [(? & _)|[_ ?]]; [discriminate|lia].
    + destruct (fire_next_end s) as [o E]; try lia.
      rewrite E in Hfire. injection Hfire as <- <-. simpl.
      split; [|done]. intros _. right. split; [done|lia].
Qed.

(** Along any trace, [hasEnded] has turned true once for each Replay
    (which closes a run), and once more if the last run has ended. *)
Lemma endings_count items s tr s' :
  invariant items s -> steps s tr s' ->
  (endings s (map snd tr) + (if hasEnded s then 1 else 0)
   = replays tr + (if hasEnded s' then 1 else 0))%nat.
Proof.
  intros Hinv Hsteps.
  induction Hsteps as [|s ev s1 tr s2 Hstep _ IH]; [done|].
  specialize (IH (step_invariant _ _ _ _ Hinv Hstep)).
  unfold replays in *. cbn [map snd fst endings List.filter].
  destruct (step_replay_or_live _ _ _ _ Hinv Hstep)
    as [(-> & Hend & Hend')|(Hne & Hend)].
  - rewrite Hend, Hend' in *. simpl in *. lia.
  - rewrite Hend in *. destruct ev; try done;
      destruct (hasEnded s1); simpl in *; lia.
Qed.

Lemma steps_invariant items s tr s' :
  invariant items s -> steps s tr s' -> invariant items s'.
Proof.
  intros Hinv Hsteps. induction Hsteps as [|s ev s1 tr s2 Hstep _ IH]; [done|].
  apply IH. by eapply step_invariant.
Qed.

(** *** Uninterrupted ticks *)

Lemma run_app evs1 evs2 s :
  run (evs1 ++ evs2)%list s = run evs1 s ≫= run evs2.
Proof.
  revert s. induction evs1 as [|ev evs1 IH]; intros s; [done|].
  cbn [app run]. destruct (enabled ev s); [|done].
  destruct (fire ev s) as [[s1 o]|]; [apply IH|done].
Qed.

(** [n] ticks take a countdown of [n + 1] down to 1 and touch nothing
    else. *)
Lemma run_countdown n : forall s,
  enabled Tick s = true -> countdown s = Z.of_nat n + 1 ->
  run (repeat Tick n) s = Some (setCountdown 1 s).
Proof.
  induction n as [|n IH]; intros s Hen Hc.
  - simpl. f_equal. rewrite <- (setCountdown_same s) at 1. by rewrite Hc.
  - cbn [repeat run]. rewrite Hen, fire_tick_decrement by lia.
    rewrite IH; [by destruct s | done | simpl; lia].
Qed.

(** The 8 ticks of a question. *)
Lemma run_question s :
  enabled Tick s = true -> 0 <= currentIndex s < length_of s ->
  showAnswer s = false -> countdown s = 8 ->
  run (repeat Tick 8) s = Some (setCountdown 6 (setShowAnswer true s)).
Proof.
  intros Hen Hi Ha Hc.
  change (repeat Tick 8) with (repeat Tick 7 ++ [Tick])%list.
  rewrite run_app, (run_countdown 7 s Hen) by (rewrite Hc; done). simpl.
  change (timerRunning (setCountdown 1 s)) with (enabled Tick s). rewrite Hen.
  destruct (fire_tick_reveal (setCountdown 1 s)) as [o E]; try done.
  rewrite E. by destruct s.
Qed.

(** The 6 ticks of an answer that is followed by another item. *)
Lemma run_answer_next s :
  enabled Tick s = true -> 0 <= currentIndex s < length_of s - 1 ->
  showAnswer s = true -> countdown s = 6 ->
  run (repeat Tick 6) s
  = Some (setCountdown 8 (setShowAnswer false
            (setCurrentIndex (currentIndex s + 1) s))).
Proof.
  intros Hen Hi Ha Hc.
  change (repeat Tick 6) with (repeat Tick 5 ++ [Tick])%list.
  rewrite run_app, (run_countdown 5 s Hen) by (rewrite Hc; done). simpl.
  change (timerRunning (setCountdown 1 s)) with (enabled Tick s). rewrite Hen.
  destruct (fire_tick_advance (setCountdown 1 s)) as [o E].
  { simpl. lia. } { done. } { done. }
  { unfold length_of in *. simpl. lia. }
  rewrite E. by destruct s.
Qed.

(** The 6 ticks of the answer of the last item. *)
Lemma run_answer_last s :
  enabled Tick s = true -> ~ currentIndex s < length_of s - 1 ->
  showAnswer s = true -> countdown s = 6 ->
  run (repeat Tick 6) s = Some (setCountdown 0 (setHasEnded true s)).
Proof.
  intros Hen Hi Ha Hc.
  change (repeat Tick 6) with (repeat Tick 5 ++ [Tick])%list.
  rewrite run_app, (run_countdown 5 s Hen) by (rewrite Hc; done). simpl.
  change (timerRunning (setCountdown 1 s)) with (enabled Tick s). rewrite Hen.
  destruct (fire_tick_end (setCountdown 1 s)) as [o E]; try done.
  rewrite E. by destruct s.
Qed.

(** The state of a running playback that shows question [i]. *)
Lemma enabled_tick_question items i :
  items <> [] ->
  enabled Tick (mkPlayState items i false false "" false false 8) = true.
Proof.
  intros Hne. unfold enabled, timerRunning, length_of, has_error. simpl.
  destruct items; [done|]. simpl. done.
Qed.

(** With [k] items left to play, [14 * k] ticks end the playback. *)
Lemma run_to_the_end items (k : nat) :
  (1 <= k <= length items)%nat ->
  run (repeat Tick (14 * k))
      (mkPlayState items (Z.of_nat (length items - k)) false false "" false false 8)
  = Some (mkPlayState items (Z.of_nat (length items) - 1) true false ""
                      false true 0).
Proof.
  intros Hk. assert (Hne : items <> []) by (destruct items; simpl in *; [lia|done]).
  induction k as [|k IH]; [lia|].
  replace (14 * S k)%nat with (8 + (6 + 14 * k))%nat by lia.
  rewrite !repeat_app, run_app.
  set (i := Z.of_nat (length items - S k)).
  rewrite run_question;
    [| by apply enabled_tick_question | unfold length_of; simpl; lia | done | done].
  cbn [mbind option_bind setCountdown setShowAnswer triviaItems currentIndex
       showAnswer loading error isPaused hasEnded countdown].
  rewrite run_app.
  destruct (decide (k = 0%nat)) as [->|Hk0].
  - rewrite run_answer_last; [| | unfold length_of; simpl; lia | done | done].
    2:{ unfold enabled, timerRunning, length_of, has_error. simpl.
        destruct items; [done|]. done. }
    subst i. simpl.
    replace (Z.of_nat (length items - 1)) with (Z.of_nat (length items) - 1) by lia.
    done.
  - rewrite run_answer_next; [| | unfold length_of; simpl; lia | done | done].
    2:{ unfold enabled, timerRunning, length_of, has_error. simpl.
        destruct items; [done|]. done. }
    cbn [mbind option_bind setCountdown setShowAnswer setCurrentIndex
         triviaItems currentIndex showAnswer loading error isPaused hasEnded
         countdown].
    replace (i + 1) with (Z.of_nat (length items - k)) by (subst i; lia).
    apply IH. lia.
Qed.

End PlayFacts.

(** ** The claims about the playback screen *)

Import Play PlayFacts.

(** C1. The tick: when the countdown expires on a question, the state
    shows the answer and the countdown is 6; when it expires on an answer
    and an item remains, [currentIndex] is incremented, [showAnswer] is
    cleared and the countdown is 8; every other tick takes exactly 1 off
    the countdown (and leaves the item and the answer flag alone). For two
    items [A] and [B]: 8 ticks lead to the answer of [A] with countdown 6,
    6 more to the question of [B] with countdown 8, 8 more to its answer
    with countdown 6, and 6 more to [hasEnded]. *)
Theorem tick_drives_the_question_answer_cycle (s : PlayState) (A B : TriviaItem) :
  0 <= currentIndex s < length_of s ->
  (showAnswer s = false -> expires s = true ->
     state_of (fire Tick s) = Some (setCountdown 6 (setShowAnswer true s)))
  /\ (showAnswer s = true -> expires s = true ->
      currentIndex s < length_of s - 1 ->
      state_of (fire Tick s)
      = Some (setCountdown 8 (setShowAnswer false
                (setCurrentIndex (currentIndex s + 1) s))))
  /\ (1 <= countdown s ->
      ~ (showAnswer s = false /\ expires s = true) ->
      ~ (showAnswer s = true /\ expires s = true
         /\ currentIndex s < length_of s - 1) ->
      exists s', state_of (fire Tick s) = Some s'
                 /\ countdown s' = countdown s - 1
                 /\ triviaItems s' = triviaItems s
                 /\ currentIndex s' = currentIndex s
                 /\ showAnswer s' = showAnswer s)
  /\ run (repeat Tick 8) (mkPlayState [A; B] 0 false false "" false false 8)
     = Some (mkPlayState [A; B] 0 true false "" false false 6)
  /\ run (repeat Tick 6) (mkPlayState [A; B] 0 true false "" false false 6)
     = Some (mkPlayState [A; B] 1 false false "" false false 8)
  /\ run (repeat Tick 8) (mkPlayState [A; B] 1 false false "" false false 8)
     = Some (mkPlayState [A; B] 1 true false "" false false 6)
  /\ run (repeat Tick 6) (mkPlayState [A; B] 1 true false "" false false 6)
     = Some (mkPlayState [A; B] 1 true false "" false true 0).
Proof.
  intros Hi. unfold expires.
  split; [|split; [|split; [|split; [|split; [|split]]]]].
  - intros Ha Hx. apply Z.leb_le in Hx.
    destruct (fire_tick_reveal s Hi Hx Ha) as [o E]. by rewrite E.
  - intros Ha Hx Hn. apply Z.leb_le in Hx.
    destruct (fire_tick_advance s) as [o E]; try done; try lia. by rewrite E.
  - intros Hc Hq Hn.
    destruct (Z.le_gt_cases (countdown s) 1) as [Hexp|Hexp].
    + assert (Hx : (countdown s <=? 1) = true) by by apply Z.leb_le.
      destruct (showAnswer s) eqn:Ha; [|by destruct Hq].
      destruct (fire_tick_end s) as [o E]; try done.
      { intros Hlt. by apply Hn. }
      rewrite E. eexists. split; [done|]. simpl. repeat split; try done. lia.
    + rewrite fire_tick_decrement by lia. eexists. split; [done|]. by simpl.
  - by apply run_question.
  - by apply run_answer_next.
  - by apply run_question.
  - by apply run_answer_last.
Qed.

Lemma tick_drives_the_question_answer_cycle_witness :
  state_of (fire Tick sample_question_expiring)
  = Some (mkPlayState sample_data 0 true false "" false false 6)
  /\ state_of (fire Tick sample_answer_expiring)
     = Some (mkPlayState sample_data 1 false false "" false false 8)
  /\ exists s', state_of (fire Tick sample_question_at_5) = Some s'
                /\ countdown s' = 5 - 1
                /\ triviaItems s' = sample_data
                /\ currentIndex s' = 0
                /\ showAnswer s' = false.
Proof.
  assert (Hq : forall s, countdown s = 5 \/ showAnswer s = true ->
                 ~ (showAnswer s = false /\ expires s = true)).
  { intros s [H|H] [H1 H2]; [|congruence].
    unfold expires in H2. rewrite H in H2. discriminate. }
  split; [|split].
  - apply (tick_drives_the_question_answer_cycle sample_question_expiring
             (mkItem "" "" "" "" None) (mkItem "" "" "" "" None));
      [vm_compute; split; [discriminate|reflexivity] | reflexivity | reflexivity].
  - apply (tick_drives_the_question_answer_cycle sample_answer_expiring
             (mkItem "" "" "" "" None) (mkItem "" "" "" "" None));
      [vm_compute; split; [discriminate|reflexivity] | reflexivity | reflexivity
      | reflexivity].
  - apply (tick_drives_the_question_answer_cycle sample_question_at_5
             (mkItem "" "" "" "" None) (mkItem "" "" "" "" None)).
    + vm_compute; split; [discriminate|reflexivity].
    + vm_compute. discriminate.
    + apply Hq. by left.
    + intros (H & _). discriminate.
Defined.

(** What does hold of a pause: no tick while paused; pausing changes the
    pause flag only; resuming on an answer keeps the countdown. *)
Lemma paused_timer_is_stopped s : isPaused s = true -> enabled Tick s = false.
Proof.
  intros Hp. unfold enabled, timerRunning. rewrite Hp.
  by rewrite !orb_true_r.
Qed.

Lemma pausing_freezes s :
  isPaused s = false -> state_of (fire PausePlay s) = Some (setIsPaused true s).
Proof. intros Hp. destruct (fire_pause s Hp) as [o E]. by rewrite E. Qed.

Lemma resuming_on_an_answer_continues items s :
  invariant items s -> hasEnded s = false -> isPaused s = true ->
  showAnswer s = true ->
  state_of (fire PausePlay s) = Some (setIsPaused false s).
Proof.
  intros (Hit & Hl & He & Hi & _) Hend Hp Ha.
  destruct (fire_resume s) as [o E]; try done.
  { unfold length_of. by rewrite Hit. }
  rewrite E, Ha. done.
Qed.

(** C2, at the input where the code departs from it. The first question
    is showing and is paused with 3 seconds left: the timer is stopped and
    pausing kept the countdown at 3, but pressing Resume makes the effect
    that speaks the question run again, and it sets the countdown to 8. *)
Theorem resume_on_a_question_restarts_the_countdown :
  run (repeat Tick 5 ++ [PausePlay])%list (playing sample_data)
  = Some sample_paused_at_3
  /\ countdown sample_paused_at_3 = 3
  /\ enabled Tick sample_paused_at_3 = false
  /\ enabled PausePlay sample_paused_at_3 = true
  /\ state_of (fire PausePlay sample_paused_at_3)
     = Some (mkPlayState sample_data 0 false false "" false false 8).
Proof. vm_compute. by repeat split. Qed.

(** Every state of a trace satisfies the invariant. *)
Lemma steps_all_invariant items s tr s' :
  invariant items s -> steps s tr s' -> Forall (invariant items) (map snd tr).
Proof.
  intros Hinv Hsteps. induction Hsteps as [|s ev s1 tr s2 Hstep _ IH]; [done|].
  pose proof (step_invariant _ _ _ _ Hinv Hstep). constructor; auto.
Qed.

(** C3. In a playback of [N >= 1] items, whatever the interleaving of
    ticks and user actions: every state visited has [currentIndex] in
    [0..N-1] and [countdown >= 0]; [hasEnded] turns true exactly once per
    run (the number of times it has turned true is the number of runs that
    a Replay has closed, plus one if the current run has ended; after it,
    only Replay can happen), and it turns true exactly at a tick that
    expires on the answer of item [N-1] or at a "next" on item [N-1]; no
    handler fails; and the run that nobody interrupts ends, after
    [14 * N] ticks. *)
Theorem playback_invariants (items : list TriviaItem)
    (tr : list (Event * PlayState)) (s : PlayState) :
  items <> [] -> steps (playing items) tr s ->
  let N := Z.of_nat (length items) in
  Forall (fun s1 => triviaItems s1 = items /\ 0 <= currentIndex s1 <= N - 1
                    /\ 0 <= countdown s1)
         (playing items :: map snd tr)
  /\ endings (playing items) (map snd tr)
     = (replays tr + (if hasEnded s then 1 else 0))%nat
  /\ (forall ev s', step s ev s' ->
        (hasEnded s = false /\ hasEnded s' = true)
        <-> ((ev = Tick /\ showAnswer s = true /\ expires s = true
              /\ currentIndex s = N - 1)
             \/ (ev = NextQuestion /\ currentIndex s = N - 1)))
  /\ (forall ev s', hasEnded s = true -> step s ev s' -> ev = Replay)
  /\ (forall ev, enabled ev s = true -> exists s', step s ev s')
  /\ run (repeat Tick (14 * length items)) (playing items)
     = Some (mkPlayState items (N - 1) true false "" false true 0).
Proof.
  intros Hne Hsteps N.
  pose proof (playing_invariant items Hne) as Hinv0.
  pose proof (steps_invariant _ _ _ _ Hinv0 Hsteps) as Hinv.
  split; [|split; [|split; [|split; [|split]]]].
  - assert (Hall : Forall (invariant items) (playing items :: map snd tr))
      by (constructor; [done | exact (steps_all_invariant _ _ _ _ Hinv0 Hsteps)]).
    eapply Forall_impl; [exact Hall|].
    intros s1 (? & _ & _ & ? & ? & _). repeat split; try done; lia.
  - pose proof (endings_count _ _ _ _ Hinv0 Hsteps) as E. simpl in E. lia.
  - intros ev s' Hstep. by apply step_ending.
  - intros ev s' Hend Hstep.
    destruct (step_replay_or_live _ _ _ _ Hinv Hstep) as [(? & _)|(_ & ?)];
      [done | congruence].
  - intros ev Hen. by eapply step_progress.
  - pose proof (run_to_the_end items (length items)) as E.
    rewrite Nat.sub_diag in E. apply E.
    destruct items; [done | simpl; lia].
Qed.

Lemma playback_invariants_witness :
  let s1 := mkPlayState sample_data 0 false false "" false false 7 in
  let N := 3 in
  Forall (fun s1 => triviaItems s1 = sample_data /\ 0 <= currentIndex s1 <= N - 1
                    /\ 0 <= countdown s1)
         [playing sample_data; s1]
  /\ endings (playing sample_data) [s1] = 0%nat
  /\ (forall ev s', step s1 ev s' ->
        (hasEnded s1 = false /\ hasEnded s' = true)
        <-> ((ev = Tick /\ showAnswer s1 = true /\ expires s1 = true
              /\ currentIndex s1 = N - 1)
             \/ (ev = NextQuestion /\ currentIndex s1 = N - 1)))
  /\ (forall ev s', hasEnded s1 = true -> step s1 ev s' -> ev = Replay)
  /\ (forall ev, enabled ev s1 = true -> exists s', step s1 ev s')
  /\ run (repeat Tick 42) (playing sample_data)
     = Some (mkPlayState sample_data 2 true false "" false true 0).
Proof.
  intros s1 N.
  apply (playback_invariants sample_data [(Tick, s1)] s1).
  - discriminate.
  - apply steps_cons with (s1 := s1); [|apply steps_nil].
    apply step_fire with (out := []); reflexivity.
Defined.

(** The cap on the items played, for a count that is absent or parses to
    a number that is not negative. *)
Lemma fetchTrivia_caps_to_count q_country count items s n :
  items <> [] -> requestedCount count = Some n -> 0 <= n ->
  let s' := fst (fetchTrivia q_country count
                   (Responded (mkResponse 200 (Items items))) s) in
  triviaItems s' = take (Z.to_nat n) items
  /\ Z.of_nat (length (triviaItems s')) = Z.min n (Z.of_nat (length items)).
Proof.
  intros Hne Hcount Hn. unfold fetchTrivia.
  change (ok (mkResponse 200 (Items items))) with true.
  cbn [negb body].
  destruct items as [|x items]; [done|]. cbn [length Nat.eqb].
  rewrite Hcount. cbn [fst triviaItems setLoading setTriviaItems].
  unfold slice0. destruct (Z.ltb_spec n 0); [lia|].
  set (l := x :: items).
  assert (E : take (Z.to_nat (Z.min n (Z.of_nat (length l)))) l
              = take (Z.to_nat n) l).
  { destruct (Z.le_gt_cases n (Z.of_nat (length l))).
    - by rewrite Z.min_l.
    - rewrite Z.min_r, Nat2Z.id by lia. rewrite !take_ge; [done|lia|lia]. }
  rewrite E. split; [done|]. rewrite length_take. subst l. cbn [length]. lia.
Qed.

Lemma requestedCount_absent : requestedCount None = Some 10.
Proof. reflexivity. Qed.

(** C7, at the input where the code departs from it. The count "abc" is
    not parseable: [parseInt] gives [NaN], which is not replaced by 10,
    and [slice(0, NaN)] keeps no item. Of the three items fetched, none is
    played (the claim says [min 10 3 = 3], as happens when the count is
    absent), and the playing screen is rendered without a current item. *)
Theorem unparseable_count_plays_no_item :
  let loaded count :=
    fst (fetchTrivia "USA" count
           (Responded (mkResponse 200 (Items sample_data))) initialState) in
  requestedCount (Some (QString "abc")) = None
  /\ triviaItems (loaded (Some (QString "abc"))) = []
  /\ screen (loaded (Some (QString "abc"))) = PlayingScreen
  /\ currentItem (loaded (Some (QString "abc"))) = None
  /\ length (triviaItems (loaded None)) = 3%nat
  /\ length (triviaItems (loaded (Some (QString "2")))) = 2%nat.
Proof. vm_compute. by repeat split. Qed.

(** C8 (amended). From a state that shows an answer and has a next item,
    "next" leads to exactly the state that the tick leads to when the
    countdown expires. From a state that shows a question and has a next
    item, "next" goes straight to the next question (index + 1, answer
    hidden, countdown 8), where the expiring tick reveals the answer. On
    the last item "next" sets [hasEnded] and changes nothing else. *)
Theorem next_forces_the_advance (s : PlayState) :
  0 <= currentIndex s < length_of s ->
  (showAnswer s = true -> currentIndex s < length_of s - 1 ->
     forall c, c <= 1 ->
       state_of (fire NextQuestion s) = state_of (fire Tick (setCountdown c s)))
  /\ (showAnswer s = false -> currentIndex s < length_of s - 1 ->
      state_of (fire NextQuestion s)
      = Some (setCountdown 8 (setCurrentIndex (currentIndex s + 1) s))
      /\ forall c, c <= 1 ->
           state_of (fire Tick (setCountdown c s))
           = Some (setCountdown 6 (setShowAnswer true s)))
  /\ (currentIndex s = length_of s - 1 ->
      state_of (fire NextQuestion s) = Some (setHasEnded true s)).
Proof.
  intros Hi. split; [|split].
  - intros Ha Hn c Hc.
    destruct (fire_next_advance s) as [o E]; [lia | done |].
    destruct (fire_tick_advance (setCountdown c s)) as [o' E'].
    { simpl. lia. } { done. } { done. } { unfold length_of in *. simpl. lia. }
    rewrite E, E'. by destruct s.
  - intros Ha Hn. split.
    + destruct (fire_next_advance s) as [o E]; [lia | done |].
      rewrite E. destruct s; simpl in *. by subst.
    + intros c Hc.
      destruct (fire_tick_reveal (setCountdown c s)) as [o' E']; [done..|].
      rewrite E'. by destruct s.
  - intros Hlast. destruct (fire_next_end s) as [o E]; [lia|]. by rewrite E.
Qed.

Lemma next_forces_the_advance_witness :
  state_of (fire NextQuestion sample_answer_expiring)
  = state_of (fire Tick (setCountdown 1 sample_answer_expiring))
  /\ state_of (fire NextQuestion sample_question_at_5)
     = Some (mkPlayState sample_data 1 false false "" false false 8)
  /\ state_of (fire NextQuestion sample_last_answer_at_4)
     = Some (mkPlayState sample_data 2 true false "" false true 4).
Proof.
  split; [|split].
  - apply (next_forces_the_advance sample_answer_expiring);
      [vm_compute; split; [discriminate|reflexivity] | reflexivity
      | reflexivity | discriminate].
  - apply (next_forces_the_advance sample_question_at_5);
      [vm_compute; split; [discriminate|reflexivity] | reflexivity
      | reflexivity].
  - apply (next_forces_the_advance sample_last_answer_at_4);
      [vm_compute; split; [discriminate|reflexivity] | reflexivity].
Defined.

(** C8 as claimed fails on a question: when the countdown of the first
    question expires the tick reveals its answer, while "next" moves to
    the second question. *)
Lemma next_on_a_question_skips_the_answer :
  enabled NextQuestion sample_question_expiring = true
  /\ enabled Tick sample_question_expiring = true
  /\ expires sample_question_expiring = true
  /\ state_of (fire Tick sample_question_expiring)
     = Some (mkPlayState sample_data 0 true false "" false false 6)
  /\ state_of (fire NextQuestion sample_question_expiring)
     = Some (mkPlayState sample_data 1 false false "" false false 8)
  /\ state_of (fire NextQuestion sample_question_expiring)
     <> state_of (fire Tick sample_question_expiring).
Proof. vm_compute. repeat split; discriminate. Qed.

(** C9. A retrieval that matches no item is not an error: each handler
    answers 200 with an empty list of items; and the playback screen, on
    receiving that answer, sets the "not found" message as its error and
    speaks it, renders the error screen and not the playing screen, and
    enables neither the timer nor any playback button. *)
Theorem empty_result_is_not_an_error
    (w : World TriviaItem) (triviaData : loc) (data : list TriviaItem)
    (query : Query) :
  heap w !! triviaData = Some data -> random_ok w ->
  (forall ps, query !! "period" <> Some (QArray ps)) ->
  (forall c, query !! "country" = Some (QString c) -> c <> "" ->
     Contract.selected Contract.period_unfiltered (Contract.country_matches c)
       (query !! "period") data = [] ->
     exists w', ApiTrivia.handler triviaData query w
                = Ok (mkResponse 200 (Items [])) w')
  /\ (forall cs, query !! "countries" = Some (QString cs) -> cs <> "" ->
     Contract.selected Contract.period_unfiltered (Contract.countries_match cs)
       (query !! "period") data = [] ->
     exists w', ApiTriviaMulti.handler triviaData query w
                = Ok (mkResponse 200 (Items [])) w')
  /\ (forall q_country count s,
        let r := fetchTrivia q_country count
                   (Responded (mkResponse 200 (Items []))) s in
        error (fst r) = notFoundMessage
        /\ snd r = speak notFoundMessage
        /\ loading (fst r) = false
        /\ triviaItems (fst r) = triviaItems s
        /\ screen (fst r) = ErrorScreen
        /\ forall ev, enabled ev (fst r) = false).
Proof.
  intros Hd Hr Hp. split; [|split].
  - intros c Hc Hne Hnone.
    destruct (handler_spec w triviaData data query c) as (items & w' & E & HP & _);
      try done.
    rewrite Hnone in HP. apply Permutation_nil_r in HP as ->. eauto.
  - intros cs Hc Hne Hnone.
    destruct (handler_multi_spec w triviaData data query cs)
      as (items & w' & E & HP & _); try done.
    rewrite Hnone in HP. apply Permutation_nil_r in HP as ->. eauto.
  - intros q_country count s. simpl.
    repeat split; try done.
    intros ev. unfold enabled, timerRunning, screen, has_error. simpl.
    by destruct ev.
Qed.

Lemma empty_result_is_not_an_error_witness :
  (exists w', ApiTrivia.handler 1%positive sample_query_nowhere sample_server
              = Ok (mkResponse 200 (Items [])) w')
  /\ (forall q_country count s,
        let r := fetchTrivia q_country count
                   (Responded (mkResponse 200 (Items []))) s in
        error (fst r) = notFoundMessage
        /\ snd r = speak notFoundMessage
        /\ loading (fst r) = false
        /\ triviaItems (fst r) = triviaItems s
        /\ screen (fst r) = ErrorScreen
        /\ forall ev, enabled ev (fst r) = false).
Proof.
  destruct (empty_result_is_not_an_error sample_server 1%positive sample_data
              sample_query_nowhere) as (H1 & _ & H3).
  - reflexivity.
  - exact sample_random_ok.
  - intros ps. vm_compute. discriminate.
  - split; [|exact H3].
    apply (H1 "Atlantis"); [reflexivity | discriminate | reflexivity].
Defined.

(** ** Facts about the JavaScript string functions *)

Module JsStringFacts.
Import JsString.

Lemma pretty_N_char_digit (d : N) :
  pretty_N_char d ∈ ["0"; "1"; "2"; "3"; "4"; "5"; "6"; "7"; "8"; "9"]%char.
Proof. unfold pretty_N_char. repeat case_match; set_solver. Qed.

Lemma digit_of_pretty_N_char (d : N) :
  (d < 10)%N -> digit_of 10 (pretty_N_char d) = Some (Z.of_N d).
Proof.
  intros Hd.
  assert (d = 0 ∨ d = 1 ∨ d = 2 ∨ d = 3 ∨ d = 4 ∨ d = 5 ∨ d = 6 ∨ d = 7
          ∨ d = 8 ∨ d = 9)%N as H by lia.
  repeat (destruct H as [->|H]; [reflexivity|]). by subst.
Qed.

(** Reading back the decimal digits that [pretty] writes in front of [s]. *)
Lemma digits_pretty_N_go (x : N) : forall s seen,
  (0 < x)%N ->
  digits 10 (pretty_N_go x s) 0 seen = digits 10 s (Z.of_N x) true.
Proof.
  induction (N.lt_wf_0 x) as [x _ IH]. intros s seen Hx.
  rewrite pretty_N_go_step by done.
  assert (Hmod : (x `mod` 10 < 10)%N) by (by apply N.mod_lt).
  pose proof (N.div_mod x 10 ltac:(done)) as Hdm.
  destruct (decide (x `div` 10 = 0)%N) as [E|E].
  - rewrite E, pretty_N_go_0. cbn [digits].
    rewrite digit_of_pretty_N_char by done. f_equal. lia.
  - rewrite IH; [| by apply N.div_lt | lia].
    cbn [digits]. rewrite digit_of_pretty_N_char by done. f_equal. lia.
Qed.

(** The text that [pretty] writes starts with a digit, and what follows
    it is [s] or starts with a digit too. *)
Lemma pretty_N_go_head (x : N) : forall s,
  (0 < x)%N ->
  exists c rest,
    pretty_N_go x s = String c rest
    /\ c ∈ ["0"; "1"; "2"; "3"; "4"; "5"; "6"; "7"; "8"; "9"]%char
    /\ (rest = s
        \/ exists c' rest',
             rest = String c' rest'
             /\ c' ∈ ["0"; "1"; "2"; "3"; "4"; "5"; "6"; "7"; "8"; "9"]%char).
Proof.
  induction (N.lt_wf_0 x) as [x _ IH]. intros s Hx.
  rewrite pretty_N_go_step by done.
  destruct (decide (x `div` 10 = 0)%N) as [E|E].
  - rewrite E, pretty_N_go_0. eexists _, _. split; [done|].
    split; [apply pretty_N_char_digit | by left].
  - assert (H1 : (x `div` 10 < x)%N) by (by apply N.div_lt).
    assert (H2 : (0 < x `div` 10)%N) by (by apply N.neq_0_lt_0).
    destruct (IH (x `div` 10)%N H1 (String (pretty_N_char (x `mod` 10)) s) H2)
      as (c & rest & -> & Hc & Hrest).
    exists c, rest. split; [done|]. split; [done|]. right.
    destruct Hrest as [->|Hrest]; [|done].
    eexists _, _. split; [done|]. apply pretty_N_char_digit.
Qed.

(** [parseInt] on a text that consists of a digit and then nothing or
    another digit reads the digits in radix 10. *)
Lemma parseInt_digit_head c rest :
  c ∈ ["0"; "1"; "2"; "3"; "4"; "5"; "6"; "7"; "8"; "9"]%char ->
  (rest = ""
   \/ exists c' rest',
        rest = String c' rest'
        /\ c' ∈ ["0"; "1"; "2"; "3"; "4"; "5"; "6"; "7"; "8"; "9"]%char) ->
  parseInt (String c rest)
  = match digits 10 (String c rest) 0 false with
    | Some v => Some (JsNumber.to_double (1 * v))
    | None => None
    end.
Proof.
  intros Hc Hrest.
  repeat (apply elem_of_cons in Hc as [->|Hc]);
    [| try reflexivity .. | by apply elem_of_nil in Hc].
  destruct Hrest as [->|(c' & rest' & -> & Hc')]; [reflexivity|].
  repeat (apply elem_of_cons in Hc' as [->|Hc']);
    [try reflexivity .. | by apply elem_of_nil in Hc'].
Qed.

(** The same after a minus sign. *)
Lemma parseInt_minus_digit_head c rest :
  c ∈ ["0"; "1"; "2"; "3"; "4"; "5"; "6"; "7"; "8"; "9"]%char ->
  (rest = ""
   \/ exists c' rest',
        rest = String c' rest'
        /\ c' ∈ ["0"; "1"; "2"; "3"; "4"; "5"; "6"; "7"; "8"; "9"]%char) ->
  parseInt (String "-" (String c rest))
  = match digits 10 (String c rest) 0 false with
    | Some v => Some (JsNumber.to_double (-1 * v))
    | None => None
    end.
Proof.
  intros Hc Hrest.
  repeat (apply elem_of_cons in Hc as [->|Hc]);
    [| try reflexivity .. | by apply elem_of_nil in Hc].
  destruct Hrest as [->|(c' & rest' & -> & Hc')]; [reflexivity|].
  repeat (apply elem_of_cons in Hc' as [->|Hc']);
    [try reflexivity .. | by apply elem_of_nil in Hc'].
Qed.

Lemma pretty_N_pos (x : N) : (0 < x)%N -> pretty x = pretty_N_go x "".
Proof.
  intros Hx. unfold pretty, pretty_N. destruct (decide (x = 0%N)); [lia|done].
Qed.

Lemma parseInt_pretty_N (x : N) :
  Z.of_N x <= 2 ^ 53 -> parseInt (pretty x) = Some (Z.of_N x).
Proof.
  intros Hb.
  destruct (decide (x = 0%N)) as [->|Hx]; [reflexivity|].
  assert (Hpos : (0 < x)%N) by (by apply N.neq_0_lt_0).
  rewrite pretty_N_pos by done.
  destruct (pretty_N_go_head x "" Hpos) as (c & rest & E & Hc & Hrest).
  rewrite E, parseInt_digit_head, <- E by done.
  rewrite digits_pretty_N_go by done. cbn [digits]. f_equal.
  rewrite Z.mul_1_l. apply JsNumberFacts.to_double_exact. lia.
Qed.

(** The decimal text of an integer that a double holds exactly is read
    back as that integer. *)
Lemma parseInt_pretty_Z (z : Z) :
  Z.abs z <= 2 ^ 53 -> parseInt (pretty z) = Some z.
Proof.
  intros Hb. destruct z as [|p|p].
  - reflexivity.
  - change (pretty (Z.pos p)) with (pretty (N.pos p)).
    rewrite parseInt_pretty_N; [done|]. simpl in *. lia.
  - change (pretty (Z.neg p)) with ("-" +:+ pretty (N.pos p)).
    rewrite pretty_N_pos by done.
    destruct (pretty_N_go_head (N.pos p) "" ltac:(done))
      as (c & rest & E & Hc & Hrest).
    rewrite E.
    change ("-" +:+ String c rest) with (String "-" (String c rest)).
    rewrite parseInt_minus_digit_head, <- E by done.
    rewrite digits_pretty_N_go by done. cbn [digits].
    f_equal. apply JsNumberFacts.to_double_exact. simpl in *. lia.
Qed.

Lemma pretty_Z_not_empty (z : Z) : pretty z <> "".
Proof.
  destruct z as [|p|p]; [done| |done].
  change (pretty (Z.pos p)) with (pretty (N.pos p)).
  rewrite pretty_N_pos by done.
  destruct (pretty_N_go_head (N.pos p) "" ltac:(done)) as (c & rest & -> & _).
  done.
Qed.

End JsStringFacts.

(** ** The selection screen *)

Lemma home_handle_invariant ev s :
  home_invariant s -> Home.enabled ev s = true ->
  home_invariant (fst (Home.handle ev s)).
Proof.
  intros (Hc & Hco & Hp) Hen. unfold home_invariant.
  destruct ev; simpl in *; try (repeat split; try done; lia).
  - apply bool_decide_eq_true in Hen. repeat split; try done; try lia. by right.
  - apply bool_decide_eq_true in Hen. repeat split; try done; try lia. by right.
  - apply bool_decide_eq_true in Hen. unfold Home.presets in Hen.
    repeat (apply elem_of_cons in Hen as [->|Hen]);
      try (repeat split; try done; lia).
    by apply elem_of_nil in Hen.
  - unfold Home.handleStart.
    destruct (Home.chosen _ && Home.chosen _); simpl; repeat split; try done; lia.
Qed.

Lemma home_run_invariant evs : forall s s',
  home_invariant s -> Home.run evs s = Some s' -> home_invariant s'.
Proof.
  induction evs as [|ev evs IH]; intros s s' Hinv Hrun; simpl in Hrun.
  - by injection Hrun as <-.
  - destruct (Home.enabled ev s) eqn:Hen; [|done].
    eapply IH; [|exact Hrun]. by apply home_handle_invariant.
Qed.

(** X2. Whatever is clicked on the selection screen, in any order, the
    question count stays between 5 and 15, the selected country is none
    or one of the offered countries, and the selected period is none or
    one of the offered periods. *)
Theorem home_choices_stay_valid (evs : list Home.Event) (s : Home.HomeState) :
  Home.run evs Home.initialState = Some s ->
  5 <= Home.questionCount s <= 15
  /\ (Home.selectedCountry s = "" \/ Home.selectedCountry s ∈ Home.countries)
  /\ (Home.selectedPeriod s = "" \/ Home.selectedPeriod s ∈ Home.periods).
Proof.
  intros Hrun. apply (home_run_invariant evs Home.initialState s); [|done].
  unfold home_invariant. simpl. repeat split; try lia; by left.
Qed.

Lemma home_choices_stay_valid_witness :
  5 <= Home.questionCount sample_home <= 15
  /\ (Home.selectedCountry sample_home = ""
      \/ Home.selectedCountry sample_home ∈ Home.countries)
  /\ (Home.selectedPeriod sample_home = ""
      \/ Home.selectedPeriod sample_home ∈ Home.periods).
Proof.
  apply (home_choices_stay_valid sample_home_events sample_home).
  reflexivity.
Defined.

Lemma chosen_true v : Home.chosen v = true <-> v <> "".
Proof.
  unfold Home.chosen. rewrite negb_true_iff. apply String.eqb_neq.
Qed.

(** X3. Start navigates only when a country and a period are selected:
    otherwise it neither speaks nor navigates. When both are selected it
    leaves the selection as it is and navigates exactly once, to the URL
    made of the country, the period and the count; the period written is
    never the label "Any Time", which is replaced by "any", and any other
    period is written as selected. *)
Theorem start_needs_a_complete_selection (s : Home.HomeState) :
  (Home.selectedCountry s = "" \/ Home.selectedPeriod s = "" ->
     Home.handleStart s = (s, []))
  /\ (Home.selectedCountry s <> "" -> Home.selectedPeriod s <> "" ->
      fst (Home.handleStart s) = s
      /\ Home.pushed (snd (Home.handleStart s))
         = ["/play?country=" ++ Home.selectedCountry s
            ++ "&period=" ++ Home.periodParam s
            ++ "&count=" ++ pretty (Home.questionCount s)]
      /\ Home.periodParam s <> "Any Time"
      /\ (Home.selectedPeriod s = "Any Time" -> Home.periodParam s = "any")
      /\ (Home.selectedPeriod s <> "Any Time" ->
          Home.periodParam s = Home.selectedPeriod s)).
Proof.
  split.
  - intros [E|E]; unfold Home.handleStart, Home.chosen; rewrite E; simpl;
      [done | by rewrite andb_false_r].
  - intros Hc Hp. unfold Home.handleStart.
    rewrite (proj2 (chosen_true _) Hc), (proj2 (chosen_true _) Hp). simpl.
    split; [done|]. split; [done|]. unfold Home.periodParam.
    destruct (String.eqb_spec (Home.selectedPeriod s) "Any Time") as [E|E].
    + repeat split; done.
    + repeat split; done.
Qed.

Lemma start_needs_a_complete_selection_witness :
  Home.handleStart Home.initialState = (Home.initialState, [])
  /\ fst (Home.handleStart sample_home) = sample_home
  /\ Home.pushed (snd (Home.handleStart sample_home))
     = ["/play?country=Nigeria&period=any&count=11"].
Proof.
  split.
  - apply (start_needs_a_complete_selection Home.initialState). by left.
  - destruct (start_needs_a_complete_selection sample_home) as [_ H].
    destruct H as (H1 & H2 & _); [discriminate | discriminate |].
    split; [exact H1 | exact H2].
Defined.

Lemma requestedCount_pretty (z : Z) :
  Z.abs z <= 2 ^ 53 ->
  Play.requestedCount (Some (QString (pretty z))) = Some z.
Proof.
  intros Hb. unfold Play.requestedCount. cbn [truthy Play.value_toString].
  destruct (String.eqb_spec (pretty z) "") as [E|_].
  - by destruct (JsStringFacts.pretty_Z_not_empty z).
  - cbn [negb]. by apply JsStringFacts.parseInt_pretty_Z.
Qed.

(** X1. The count that the playback screen asks for: 10 when the count
    parameter is absent or empty, and [z] when it is the decimal text of
    an integer [z] that a Number holds exactly ([|z| <= 2^53], as the
    counts that the selection screen writes are); beyond that the text
    is read as the nearest double: 9007199254740993 gives
    9007199254740992. *)
Theorem requested_count_of_a_decimal (z : Z) :
  Z.abs z <= 2 ^ 53 ->
  requestedCount None = Some 10
  /\ requestedCount (Some (QString "")) = Some 10
  /\ requestedCount (Some (QString (pretty z))) = Some z
  /\ requestedCount (Some (QString "9007199254740993"))
     = Some 9007199254740992.
Proof.
  intros Hb. split; [reflexivity|]. split; [reflexivity|].
  split; [by apply requestedCount_pretty | by vm_compute].
Qed.

Lemma requested_count_of_a_decimal_witness :
  requestedCount None = Some 10
  /\ requestedCount (Some (QString "")) = Some 10
  /\ requestedCount (Some (QString (pretty 12))) = Some 12
  /\ requestedCount (Some (QString "9007199254740993"))
     = Some 9007199254740992.
Proof.
  apply (requested_count_of_a_decimal 12). vm_compute. discriminate.
Defined.

(** X4. From the selection screen to the playback: the count written
    into the URL by Start is read back by the playback screen as the very
    count selected, so after a successful retrieval of at least one item
    the playback holds the first [min count fetched] items, in the order
    received: at least 1 and at most 15 of them. *)
Theorem chosen_count_caps_the_playback
    (evs : list Home.Event) (s : Home.HomeState)
    (items : list TriviaItem) (p : PlayState) :
  Home.run evs Home.initialState = Some s -> items <> [] ->
  let count := Some (QString (pretty (Home.questionCount s))) in
  let s' := fst (fetchTrivia (Home.selectedCountry s) count
                   (Responded (mkResponse 200 (Items items))) p) in
  requestedCount count = Some (Home.questionCount s)
  /\ triviaItems s' = take (Z.to_nat (Home.questionCount s)) items
  /\ Z.of_nat (length (triviaItems s'))
     = Z.min (Home.questionCount s) (Z.of_nat (length items))
  /\ (1 <= length (triviaItems s') <= 15)%nat.
Proof.
  intros Hrun Hne count s'.
  assert (Hinv : home_invariant s).
  { apply (home_run_invariant evs Home.initialState s); [|done].
    unfold home_invariant. simpl. repeat split; try lia; by left. }
  destruct Hinv as (Hc & _).
  assert (Hcount : requestedCount count = Some (Home.questionCount s)).
  { apply requestedCount_pretty.
    assert (15 < 2 ^ 53) by done. lia. }
  destruct (fetchTrivia_caps_to_count (Home.selectedCountry s) count items p
              (Home.questionCount s) Hne Hcount ltac:(lia)) as (H1 & H2).
  assert (Hlen : (1 <= length items)%nat)
    by (destruct items; [done | simpl; lia]).
  fold s' in H1, H2. repeat split; try done; lia.
Qed.

Lemma chosen_count_caps_the_playback_witness :
  let count := Some (QString (pretty (Home.questionCount sample_home))) in
  let s' := fst (fetchTrivia (Home.selectedCountry sample_home) count
                   (Responded (mkResponse 200 (Items sample_data)))
                   initialState) in
  requestedCount count = Some (Home.questionCount sample_home)
  /\ triviaItems s' = take (Z.to_nat (Home.questionCount sample_home)) sample_data
  /\ Z.of_nat (length (triviaItems s'))
     = Z.min (Home.questionCount sample_home) (Z.of_nat (length sample_data))
  /\ (1 <= length (triviaItems s') <= 15)%nat.
Proof.
  apply (chosen_count_caps_the_playback sample_home_events sample_home
           sample_data initialState).
  - reflexivity.
  - discriminate.
Defined.

(** ** The handlers on every request *)

Section HandlerTotal.
Implicit Types (w : World TriviaItem) (data l : list TriviaItem) (query : Query).

Lemma try_catch_Throw {A} (m : M TriviaItem A) h w e w' :
  m w = Throw e w' -> try_catch m h w = h e w'.
Proof. unfold try_catch. by intros ->. Qed.

Lemma bind_Throw {A B} (m : M TriviaItem A) (k : A -> M TriviaItem B) w e w' :
  m w = Throw e w' -> bind m k w = Throw e w'.
Proof. unfold bind. by intros ->. Qed.

Lemma filter_list_throws (p : TriviaItem -> M TriviaItem bool) e l w :
  (forall x w0, p x w0 = Throw e w0) -> l <> [] ->
  filter_list p l w = Throw e w.
Proof.
  intros Hp Hne. destruct l as [|x l]; [done|].
  cbn [filter_list]. by rewrite (bind_Throw _ _ _ _ _ (Hp x w)).
Qed.

Lemma elem_of_filter_sub (f : TriviaItem -> bool) l x :
  x ∈ List.filter f l -> x ∈ l.
Proof.
  rewrite !list_elem_of_In. intros H. by apply filter_In in H as [? _].
Qed.

(** The tail of both routes either answers 200 with items of [l], or
    throws (when the period is repeated); the arrays of the store stay. *)
Lemma respond_cases q_period a w l :
  heap w !! a = Some l -> random_ok w ->
  (exists items w',
     (let* filtered := filter_period q_period a in
      let* shuffled := shuffleArray filtered in
      let* items := array_contents shuffled in
      ret (mkResponse 200 (Items items))) w
     = Ok (mkResponse 200 (Items items)) w'
     /\ (forall x, x ∈ items -> x ∈ l)
     /\ (forall b lb, heap w !! b = Some lb -> heap w' !! b = Some lb))
  \/ (exists e ps,
     q_period = Some (QArray ps)
     /\ (let* filtered := filter_period q_period a in
         let* shuffled := shuffleArray filtered in
         let* items := array_contents shuffled in
         ret (mkResponse 200 (Items items))) w
        = Throw e w).
Proof.
  intros Ha Hr.
  assert ((exists ps, q_period = Some (QArray ps))
          \/ forall ps, q_period <> Some (QArray ps)) as [[ps ->]|Hn].
  { destruct q_period as [[p|ps]|]; [by right | left; eauto | by right]. }
  - right. eexists _, ps. split; [done|]. reflexivity.
  - left. destruct (respond_spec q_period a w l Ha Hr Hn)
      as (items & w' & E & HP & Hk).
    exists items, w'. split; [done|]. split; [|done].
    intros x Hx. rewrite HP in Hx. by apply elem_of_filter_sub in Hx.
Qed.

(** The route for one country answers every request. *)
Lemma handler_total w triviaData data query :
  heap w !! triviaData = Some data -> random_ok w ->
  exists r w',
    ApiTrivia.handler triviaData query w = Ok r w'
    /\ answer_shape data r
    /\ (forall b lb, heap w !! b = Some lb -> heap w' !! b = Some lb).
Proof.
  intros Hd Hr. unfold ApiTrivia.handler.
  set (h := fun _ : string => _).
  destruct (truthy (query !! "country")) eqn:Ht; cbn [negb].
  2:{ eexists _, _. split; [by apply try_catch_Ok|].
      split; [|done]. right; left. simpl. eauto. }
  set (p := fun item : TriviaItem => _).
  assert (Hcases :
    (exists f, forall x w0, p x w0 = Ok (f x) w0)
    \/ (exists e, forall x w0, p x w0 = Throw e w0)).
  { subst p. destruct (query !! "country") as [[c|cs]|]; [| |done].
    - left. by eexists (fun x => _).
    - right. by eexists. }
  destruct Hcases as [[f Hp]|[e Hp]].
  - destruct (array_filter_pure triviaData p f w data Hd Hp)
      as (a1 & w1 & E1 & Ha1 & Hext).
    destruct (respond_cases (query !! "period") a1 w1 _ Ha1
                (extends_random_ok _ _ Hext Hr))
      as [(items & w2 & E2 & Hsub & Hk)|(e & ps & _ & E2)].
    + eexists _, w2. split.
      { apply try_catch_Ok. rewrite (bind_Ok _ _ _ _ _ E1). exact E2. }
      split.
      * left. simpl. split; [done|]. exists items. split; [done|].
        intros x Hx. eapply elem_of_filter_sub. eauto.
      * destruct Hext as (_ & _ & Hh). auto.
    + eexists _, w1. split.
      { erewrite try_catch_Throw; [reflexivity|].
        rewrite (bind_Ok _ _ _ _ _ E1). exact E2. }
      split; [right; right; by simpl|]. destruct Hext as (_ & _ & Hh). auto.
  - destruct data as [|x0 data'].
    + assert (E1 : array_filter triviaData p w
                   = Ok (fresh (dom (heap w)))
                        (set_heap (<[fresh (dom (heap w)) := []]> (heap w)) w)).
      { unfold array_filter.
        by rewrite (bind_Ok _ _ _ _ _ (array_contents_Ok _ _ _ Hd)). }
      set (a1 := fresh (dom (heap w))) in *. set (w1 := set_heap _ w) in *.
      assert (Ha1 : heap w1 !! a1 = Some []) by (subst w1; simpl; apply lookup_insert_eq).
      assert (Hkeep : forall b lb, heap w !! b = Some lb -> heap w1 !! b = Some lb).
      { intros b lb Hb. subst w1. simpl. rewrite lookup_insert_ne; [done|].
        intros <-. unfold a1 in Hb. by rewrite (array_new_fresh [] w) in Hb. }
      destruct (respond_cases (query !! "period") a1 w1 _ Ha1 Hr)
        as [(items & w2 & E2 & Hsub & Hk)|(e' & ps & _ & E2)].
      * eexists _, w2. split.
        { apply try_catch_Ok. rewrite (bind_Ok _ _ _ _ _ E1). exact E2. }
        split; [|auto]. left. simpl. split; [done|]. eauto.
      * eexists _, w1. split.
        { erewrite try_catch_Throw; [reflexivity|].
          rewrite (bind_Ok _ _ _ _ _ E1). exact E2. }
        split; [right; right; by simpl | done].
    + eexists _, w. split.
      { erewrite try_catch_Throw; [reflexivity|].
        apply bind_Throw. unfold array_filter.
        rewrite (bind_Ok _ _ _ _ _ (array_contents_Ok _ _ _ Hd)).
        apply bind_Throw. by apply filter_list_throws. }
      split; [right; right; by simpl | done].
Qed.

(** The route for a list of countries answers every request. *)
Lemma handler_multi_total w triviaData data query :
  heap w !! triviaData = Some data -> random_ok w ->
  exists r w',
    ApiTriviaMulti.handler triviaData query w = Ok r w'
    /\ answer_shape data r
    /\ (forall b lb, heap w !! b = Some lb -> heap w' !! b = Some lb).
Proof.
  intros Hd Hr. unfold ApiTriviaMulti.handler.
  set (h := fun _ : string => _).
  destruct (truthy (query !! "countries")) eqn:Ht; cbn [negb].
  2:{ eexists _, _. split; [by apply try_catch_Ok|].
      split; [|done]. right; left. simpl. eauto. }
  destruct (query !! "countries") as [[cs|css]|] eqn:Hq; [| |done].
  - cbn [value_split].
    edestruct (array_filter_pure triviaData) as (a1 & w1 & E1 & Ha1 & Hext);
      [exact Hd | |].
    { intros x w0.
      instantiate (1 := fun item => existsb (fun c =>
         String.eqb (JsString.toLowerCase (country item))
                    (JsString.toLowerCase c)) (JsString.split "," cs)).
      instantiate (1 := fun item =>
        ret (existsb (fun c0 =>
               String.eqb (JsString.toLowerCase (country item))
                          (JsString.toLowerCase c0)) (JsString.split "," cs))).
      reflexivity. }
    destruct (respond_cases (query !! "period") a1 w1 _ Ha1
                (extends_random_ok _ _ Hext Hr))
      as [(items & w2 & E2 & Hsub & Hk)|(e & ps & _ & E2)].
    + eexists _, w2. split.
      { apply try_catch_Ok.
        rewrite (bind_Ok _ _ w (JsString.split "," cs) w) by done.
        rewrite (bind_Ok _ _ _ _ _ E1). exact E2. }
      split.
      * left. simpl. split; [done|]. exists items. split; [done|].
        intros x Hx. eapply elem_of_filter_sub. eauto.
      * destruct Hext as (_ & _ & Hh). auto.
    + eexists _, w1. split.
      { erewrite try_catch_Throw; [reflexivity|].
        rewrite (bind_Ok _ _ w (JsString.split "," cs) w) by done.
        rewrite (bind_Ok _ _ _ _ _ E1). exact E2. }
      split; [right; right; by simpl|]. destruct Hext as (_ & _ & Hh). auto.
  - eexists _, w. split.
    { erewrite try_catch_Throw; [reflexivity|]. reflexivity. }
    split; [right; right; by simpl | done].
Qed.

End HandlerTotal.

(** X5. Each retrieval handler answers every request, whatever the
    query holds (absent, empty, single or repeated parameters): with 200
    and items that all come from the collection, with 400 and an error
    body, or with 500 and the body [Internal server error while fetching
    trivia]; no exception escapes, and no array that existed before the
    call, the collection included, is changed. *)
Theorem handlers_always_answer
    (w : World TriviaItem) (triviaData : loc) (data : list TriviaItem)
    (query : Query) :
  heap w !! triviaData = Some data -> random_ok w ->
  (exists r w',
     ApiTrivia.handler triviaData query w = Ok r w'
     /\ answer_shape data r
     /\ (forall b lb, heap w !! b = Some lb -> heap w' !! b = Some lb))
  /\ (exists r w',
     ApiTriviaMulti.handler triviaData query w = Ok r w'
     /\ answer_shape data r
     /\ (forall b lb, heap w !! b = Some lb -> heap w' !! b = Some lb)).
Proof.
  intros Hd Hr. split; [by apply handler_total | by apply handler_multi_total].
Qed.

Lemma handlers_always_answer_witness :
  (exists r w',
     ApiTrivia.handler 1%positive sample_query_repeated sample_server = Ok r w'
     /\ answer_shape sample_data r
     /\ (forall b lb, heap sample_server !! b = Some lb -> heap w' !! b = Some lb))
  /\ (exists r w',
     ApiTriviaMulti.handler 1%positive sample_query_repeated sample_server = Ok r w'
     /\ answer_shape sample_data r
     /\ (forall b lb, heap sample_server !! b = Some lb -> heap w' !! b = Some lb)).
Proof.
  apply (handlers_always_answer sample_server 1%positive sample_data
           sample_query_repeated).
  - reflexivity.
  - exact sample_random_ok.
Defined.

(** X6. A repeated parameter reaches the handlers as an array, on which
    the string methods fail, and the [catch] turns the failure into 500:
    a repeated country when the collection is not empty, a repeated
    period when the country is a non-empty string, a repeated countries
    parameter in the variant. On an empty collection a repeated country
    is never looked at and the answer is 200 with no items. *)
Theorem repeated_parameters_answer_500
    (w : World TriviaItem) (triviaData : loc) (data : list TriviaItem)
    (query : Query) (vs : list string) :
  heap w !! triviaData = Some data -> random_ok w ->
  let failure :=
    mkResponse 500 (ErrorBody "Internal server error while fetching trivia") in
  (query !! "country" = Some (QArray vs) -> data <> [] ->
     ApiTrivia.handler triviaData query w = Ok failure w)
  /\ (forall c, query !! "country" = Some (QString c) -> c <> "" ->
      query !! "period" = Some (QArray vs) ->
      returned (ApiTrivia.handler triviaData query w) = Some failure)
  /\ (query !! "countries" = Some (QArray vs) ->
      ApiTriviaMulti.handler triviaData query w = Ok failure w)
  /\ (query !! "country" = Some (QArray vs) -> data = [] ->
      query !! "period" = None ->
      returned (ApiTrivia.handler triviaData query w)
      = Some (mkResponse 200 (Items []))).
Proof.
  intros Hd Hr failure. split; [|split; [|split]].
  - intros Hq Hne. unfold ApiTrivia.handler. rewrite Hq. cbn [truthy negb].
    erewrite try_catch_Throw; [reflexivity|].
    apply bind_Throw. unfold array_filter.
    rewrite (bind_Ok _ _ _ _ _ (array_contents_Ok _ _ _ Hd)).
    apply bind_Throw. by apply filter_list_throws.
  - intros c Hq Hne Hp. unfold ApiTrivia.handler.
    rewrite Hq, (truthy_string c Hne), Hp. cbn [negb].
    edestruct (array_filter_pure triviaData) as (a1 & w1 & E1 & Ha1 & Hext);
      [exact Hd | |].
    { intros x w0. instantiate (1 := Contract.country_matches c).
      instantiate (1 := fun item =>
        let* c0 := value_toLowerCase (Some (QString c)) in
        ret (String.eqb (JsString.toLowerCase (country item)) c0)).
      reflexivity. }
    erewrite try_catch_Throw; [reflexivity|].
    rewrite (bind_Ok _ _ _ _ _ E1). reflexivity.
  - intros Hq. unfold ApiTriviaMulti.handler. rewrite Hq. reflexivity.
  - intros Hq -> Hp. unfold ApiTrivia.handler. rewrite Hq, Hp. cbn [truthy negb].
    set (p := fun item : TriviaItem => _).
    assert (E1 : array_filter triviaData p w
                 = Ok (fresh (dom (heap w)))
                      (set_heap (<[fresh (dom (heap w)) := []]> (heap w)) w)).
    { unfold array_filter.
      by rewrite (bind_Ok _ _ _ _ _ (array_contents_Ok _ _ _ Hd)). }
    set (a1 := fresh (dom (heap w))) in *. set (w1 := set_heap _ w) in *.
    assert (Ha1 : heap w1 !! a1 = Some [])
      by (subst w1; simpl; apply lookup_insert_eq).
    destruct (respond_spec None a1 w1 [] Ha1 Hr ltac:(done))
      as (items & w2 & E2 & HP & _).
    apply Permutation_nil_r in HP as ->.
    erewrite try_catch_Ok; [reflexivity|].
    rewrite (bind_Ok _ _ _ _ _ E1). exact E2.
Qed.

Lemma repeated_parameters_answer_500_witness :
  let failure :=
    mkResponse 500 (ErrorBody "Internal server error while fetching trivia") in
  ApiTrivia.handler 1%positive sample_query_repeated sample_server
  = Ok failure sample_server
  /\ returned (ApiTrivia.handler 1%positive sample_query_repeated_period
                 sample_server) = Some failure
  /\ ApiTriviaMulti.handler 1%positive sample_query_repeated_countries
       sample_server = Ok failure sample_server
  /\ returned (ApiTrivia.handler 1%positive sample_query_repeated
                 sample_empty_server)
     = Some (mkResponse 200 (Items [])).
Proof.
  split; [|split; [|split]].
  - apply (repeated_parameters_answer_500 sample_server 1%positive sample_data
             sample_query_repeated ["USA"; "Nigeria"]);
      [reflexivity | exact sample_random_ok | reflexivity | discriminate].
  - apply (repeated_parameters_answer_500 sample_server 1%positive sample_data
             sample_query_repeated_period ["1940-1959"; "any"] eq_refl
             sample_random_ok) with (c := "usa");
      [reflexivity | discriminate | reflexivity].
  - apply (repeated_parameters_answer_500 sample_server 1%positive sample_data
             sample_query_repeated_countries ["USA"; "Nigeria"]);
      [reflexivity | exact sample_random_ok | reflexivity].
  - apply (repeated_parameters_answer_500 sample_empty_server 1%positive []
             sample_query_repeated ["USA"; "Nigeria"]);
      [reflexivity | exact sample_random_ok | reflexivity | reflexivity
      | reflexivity].
Defined.

(** X7. [shuffleArray] calls [Math.random] once for each index from the
    last down to 1, [length - 1] times in all; on an array of at most one
    element it draws nothing and returns a copy with the same contents. *)
Theorem shuffleArray_draws (T : Type) (w : World T) (array : loc) (l : list T) :
  heap w !! array = Some l -> random_ok w ->
  exists shuffled w',
    shuffleArray array w = Ok shuffled w'
    /\ calls w' = (calls w + (length l - 1))%nat
    /\ random w' = random w
    /\ ((length l <= 1)%nat -> calls w' = calls w /\ heap w' !! shuffled = Some l).
Proof.
  intros Ha Hr. eexists _, _. split; [by apply shuffleArray_spec|].
  simpl. split; [done|]. split; [done|].
  intros Hl. split; [lia|]. rewrite lookup_insert_eq. f_equal.
  destruct l as [|x [|y l]]; [done | done | simpl in Hl; lia].
Qed.

Lemma shuffleArray_draws_witness :
  exists shuffled w',
    shuffleArray 1%positive sample_world = Ok shuffled w'
    /\ calls w' = (calls sample_world + (4 - 1))%nat
    /\ random w' = random sample_world
    /\ ((4 <= 1)%nat ->
        calls w' = calls sample_world
        /\ heap w' !! shuffled = Some [10; 20; 30; 40]%nat).
Proof.
  apply (shuffleArray_draws nat sample_world 1%positive [10; 20; 30; 40]%nat).
  - reflexivity.
  - exact sample_random_ok.
Defined.

(** ** Splitting and lower-casing *)

Module SplitFacts.
Import JsString.

Lemma split_not_nil sep s : split sep s <> [].
Proof.
  destruct s as [|c s]; [done|]. cbn [split].
  destruct (Ascii.eqb c sep); [done|]. by destruct (split sep s).
Qed.

Lemma split_length sep s : length (split sep s) = S (occurrences sep s).
Proof.
  induction s as [|c s IH]; [done|]. cbn [split occurrences].
  destruct (Ascii.eqb c sep); [simpl; by rewrite IH|].
  pose proof (split_not_nil sep s).
  destruct (split sep s) as [|h t]; [done|]. simpl in *. lia.
Qed.

Lemma split_concat sep s : String.concat (String sep "") (split sep s) = s.
Proof.
  induction s as [|c s IH]; [done|]. cbn [split].
  pose proof (split_not_nil sep s) as Hne.
  destruct (Ascii.eqb_spec c sep) as [->|Hc].
  - destruct (split sep s) as [|h t]; [done|].
    cbn [String.concat]. cbn [String.concat] in IH. rewrite IH. done.
  - destruct (split sep s) as [|h t]; [done|].
    destruct t as [|h' t]; cbn [String.concat] in *; by rewrite <- IH.
Qed.

Lemma split_fields_clean sep s :
  Forall (fun field => occurrences sep field = 0%nat) (split sep s).
Proof.
  induction s as [|c s IH]; [by repeat constructor|]. cbn [split].
  destruct (Ascii.eqb c sep) eqn:E; [by constructor|].
  destruct (split sep s) as [|h t]; [by repeat constructor; simpl; rewrite E|].
  apply Forall_cons in IH as [Hh Ht]. constructor; [|done].
  simpl. by rewrite E, Hh.
Qed.

Lemma lower_ascii_idem c : lower_ascii (lower_ascii c) = lower_ascii c.
Proof. destruct c as [[] [] [] [] [] [] [] []]; reflexivity. Qed.

Lemma toLowerCase_idem s : toLowerCase (toLowerCase s) = toLowerCase s.
Proof.
  induction s as [|c s IH]; [done|]. simpl. by rewrite lower_ascii_idem, IH.
Qed.

Lemma toLowerCase_length s : String.length (toLowerCase s) = String.length s.
Proof. induction s as [|c s IH]; [done|]. simpl. by rewrite IH. Qed.

End SplitFacts.

Lemma split_without_separator sep s :
  occurrences sep s = 0%nat -> JsString.split sep s = [s].
Proof.
  induction s as [|c s IH]; [done|]. cbn [occurrences JsString.split].
  destruct (Ascii.eqb c sep); [done|]. intros H. by rewrite IH.
Qed.

(** X8. The variant generalises the route for one country: for a
    countries value without a comma, it answers like the route for one
    country does for that country (200 with the same items up to order).
    In general the value is cut into one field more than it has commas,
    none of which contains a comma, and which joined by commas give the
    value back. *)
Theorem one_country_in_the_variant
    (w : World TriviaItem) (triviaData : loc) (data : list TriviaItem)
    (q1 q2 : Query) (c : string) :
  heap w !! triviaData = Some data -> random_ok w ->
  q1 !! "country" = Some (QString c) -> q2 !! "countries" = Some (QString c) ->
  c <> "" -> q1 !! "period" = q2 !! "period" ->
  (forall ps, q1 !! "period" <> Some (QArray ps)) ->
  (occurrences "," c = 0%nat ->
     exists items1 items2 w1 w2,
       ApiTrivia.handler triviaData q1 w = Ok (mkResponse 200 (Items items1)) w1
       /\ ApiTriviaMulti.handler triviaData q2 w
          = Ok (mkResponse 200 (Items items2)) w2
       /\ items1 ≡ₚ items2)
  /\ length (JsString.split "," c) = S (occurrences "," c)
  /\ Forall (fun field => occurrences "," field = 0%nat) (JsString.split "," c)
  /\ String.concat "," (JsString.split "," c) = c.
Proof.
  intros Hd Hr Hq1 Hq2 Hne Hp Hstr.
  split; [|split; [apply SplitFacts.split_length
                  |split; [apply SplitFacts.split_fields_clean
                          |apply SplitFacts.split_concat]]].
  intros Hclean.
  destruct (handler_spec w triviaData data q1 c) as (i1 & w1 & E1 & P1 & _);
    try done.
  destruct (handler_multi_spec w triviaData data q2 c) as (i2 & w2 & E2 & P2 & _);
    try done.
  { intros ps. rewrite <- Hp. apply Hstr. }
  exists i1, i2, w1, w2. split; [done|]. split; [done|].
  assert (Hsame : forall item,
            Contract.countries_match c item = Contract.country_matches c item).
  { intros item. unfold Contract.countries_match.
    rewrite split_without_separator by done. simpl. by rewrite orb_false_r. }
  assert (Hsel : Contract.selected Contract.period_unfiltered
                   (Contract.countries_match c) (q2 !! "period") data
                 = Contract.selected Contract.period_unfiltered
                     (Contract.country_matches c) (q2 !! "period") data).
  { unfold Contract.selected. apply filter_ext. intros item. by rewrite Hsame. }
  by rewrite P1, P2, Hp, Hsel.
Qed.

Lemma one_country_in_the_variant_witness :
  (exists items1 items2 w1 w2,
     ApiTrivia.handler 1%positive sample_query sample_server
     = Ok (mkResponse 200 (Items items1)) w1
     /\ ApiTriviaMulti.handler 1%positive sample_query_one_of_many sample_server
        = Ok (mkResponse 200 (Items items2)) w2
     /\ items1 ≡ₚ items2)
  /\ length (JsString.split "," "usa") = 1%nat.
Proof.
  destruct (one_country_in_the_variant sample_server 1%positive sample_data
              sample_query sample_query_one_of_many "usa" eq_refl
              sample_random_ok eq_refl eq_refl) as (H1 & H2 & _).
  - discriminate.
  - reflexivity.
  - intros ps. vm_compute. discriminate.
  - split; [apply H1; reflexivity | exact H2].
Defined.

(** X9. The letter case of the requested country does not matter: two
    requests whose countries are equal after lower-casing (such as "usa",
    "USA" and "Usa"), with the same period, are both answered with 200
    and with the same items up to order, and every item returned has the
    requested country up to letter case. Lower-casing is idempotent and
    keeps the length. *)
Theorem country_case_is_irrelevant
    (w : World TriviaItem) (triviaData : loc) (data : list TriviaItem)
    (q1 q2 : Query) (c1 c2 : string) :
  heap w !! triviaData = Some data -> random_ok w ->
  q1 !! "country" = Some (QString c1) -> q2 !! "country" = Some (QString c2) ->
  c1 <> "" -> c2 <> "" ->
  JsString.toLowerCase c1 = JsString.toLowerCase c2 ->
  q1 !! "period" = q2 !! "period" ->
  (forall ps, q1 !! "period" <> Some (QArray ps)) ->
  (exists items1 items2 w1 w2,
     ApiTrivia.handler triviaData q1 w = Ok (mkResponse 200 (Items items1)) w1
     /\ ApiTrivia.handler triviaData q2 w = Ok (mkResponse 200 (Items items2)) w2
     /\ items1 ≡ₚ items2
     /\ forall item, item ∈ items1 ->
          JsString.toLowerCase (country item) = JsString.toLowerCase c1)
  /\ JsString.toLowerCase (JsString.toLowerCase c1) = JsString.toLowerCase c1
  /\ String.length (JsString.toLowerCase c1) = String.length c1.
Proof.
  intros Hd Hr Hq1 Hq2 Hn1 Hn2 Hlow Hp Hstr.
  split; [|split; [apply SplitFacts.toLowerCase_idem
                  | apply SplitFacts.toLowerCase_length]].
  destruct (handler_spec w triviaData data q1 c1) as (i1 & w1 & E1 & P1 & _);
    try done.
  destruct (handler_spec w triviaData data q2 c2) as (i2 & w2 & E2 & P2 & _);
    try done.
  { intros ps. rewrite <- Hp. apply Hstr. }
  exists i1, i2, w1, w2. split; [done|]. split; [done|].
  assert (Hsame : Contract.country_matches c1 = Contract.country_matches c2).
  { unfold Contract.country_matches. by rewrite Hlow. }
  split.
  - rewrite P1, P2. by rewrite Hsame, Hp.
  - intros item Hin. rewrite P1 in Hin.
    unfold Contract.selected in Hin. apply list_elem_of_In, filter_In in Hin.
    destruct Hin as [_ Hm]. apply andb_true_iff in Hm as [Hm _].
    by apply String.eqb_eq in Hm.
Qed.

Lemma country_case_is_irrelevant_witness :
  (exists items1 items2 w1 w2,
     ApiTrivia.handler 1%positive sample_query sample_server
     = Ok (mkResponse 200 (Items items1)) w1
     /\ ApiTrivia.handler 1%positive sample_query_upper sample_server
        = Ok (mkResponse 200 (Items items2)) w2
     /\ items1 ≡ₚ items2
     /\ forall item, item ∈ items1 ->
          JsString.toLowerCase (country item) = JsString.toLowerCase "usa")
  /\ JsString.toLowerCase (JsString.toLowerCase "usa") = JsString.toLowerCase "usa"
  /\ String.length (JsString.toLowerCase "usa") = String.length "usa".
Proof.
  apply (country_case_is_irrelevant sample_server 1%positive sample_data
           sample_query sample_query_upper "usa" "USA" eq_refl
           sample_random_ok eq_refl eq_refl).
  - discriminate.
  - discriminate.
  - reflexivity.
  - reflexivity.
  - intros ps. vm_compute. discriminate.
Defined.

(** ** More about the playback screen *)

(** X10. Replay, which is offered exactly when the playback has ended
    (no other playback event is enabled then), puts the screen back into
    the state in which the playback started: first item, answer hidden,
    not paused, not ended, countdown 8. *)
Theorem replay_restarts_the_playback
    (items : list TriviaItem) (tr : list (Event * PlayState)) (s : PlayState) :
  items <> [] -> steps (playing items) tr s -> hasEnded s = true ->
  enabled Replay s = true
  /\ (forall ev, ev <> Replay -> enabled ev s = false)
  /\ state_of (fire Replay s) = Some (playing items).
Proof.
  intros Hne Hsteps Hend.
  pose proof (steps_invariant _ _ _ _ (playing_invariant items Hne) Hsteps)
    as (Hit & Hl & He & Hi & _).
  assert (Hscreen : screen s = FinishedScreen).
  { unfold screen. by rewrite Hl, (has_error_none s He), Hend. }
  split; [by simpl; rewrite Hscreen|]. split.
  - intros ev Hev. destruct ev; simpl; rewrite ?Hscreen; try done.
    unfold timerRunning. rewrite Hend. by rewrite !orb_true_r.
  - destruct (fire_replay s) as [o E].
    { unfold length_of. rewrite Hit. destruct items; [done | simpl; lia]. }
    rewrite E. destruct s; simpl in *. by subst.
Qed.

Lemma replay_restarts_the_playback_witness :
  enabled Replay sample_single_ended = true
  /\ (forall ev, ev <> Replay -> enabled ev sample_single_ended = false)
  /\ state_of (fire Replay sample_single_ended) = Some (playing sample_single).
Proof.
  apply (replay_restarts_the_playback sample_single
           [(NextQuestion, sample_single_ended)] sample_single_ended).
  - discriminate.
  - apply steps_cons with (s1 := sample_single_ended); [|apply steps_nil].
    eapply step_fire; reflexivity.
  - reflexivity.
Defined.

(** X11. Pause and resume, in a playback that has not ended: Pause
    changes the pause flag only and stops the timer; Resume right after
    it gives back the state before the pause when the answer is showing,
    and that state with the countdown at 8 when the question is showing. *)
Theorem pause_then_resume
    (items : list TriviaItem) (tr : list (Event * PlayState)) (s : PlayState) :
  items <> [] -> steps (playing items) tr s ->
  hasEnded s = false -> isPaused s = false ->
  state_of (fire PausePlay s) = Some (setIsPaused true s)
  /\ enabled Tick (setIsPaused true s) = false
  /\ enabled PausePlay (setIsPaused true s) = true
  /\ state_of (fire PausePlay (setIsPaused true s))
     = Some (if showAnswer s then s else setCountdown 8 s).
Proof.
  intros Hne Hsteps Hend Hp.
  pose proof (steps_invariant _ _ _ _ (playing_invariant items Hne) Hsteps)
    as (Hit & Hl & He & Hi & _).
  split; [by apply pausing_freezes|].
  split; [by apply paused_timer_is_stopped|].
  split.
  - unfold enabled, screen, has_error. simpl. by rewrite Hl, He, Hend.
  - destruct (fire_resume (setIsPaused true s)) as [o E]; try done.
    { unfold length_of. simpl. by rewrite Hit. }
    rewrite E. simpl. destruct s; simpl in *. subst. by destruct showAnswer0.
Qed.

Lemma pause_then_resume_witness :
  let s := mkPlayState sample_data 0 false false "" false false 7 in
  state_of (fire PausePlay s) = Some (setIsPaused true s)
  /\ enabled Tick (setIsPaused true s) = false
  /\ enabled PausePlay (setIsPaused true s) = true
  /\ state_of (fire PausePlay (setIsPaused true s))
     = Some (mkPlayState sample_data 0 false false "" false false 8).
Proof.
  intros s.
  apply (pause_then_resume sample_data [(Tick, s)] s).
  - discriminate.
  - apply steps_cons with (s1 := s); [|apply steps_nil].
    eapply step_fire; reflexivity.
  - reflexivity.
  - reflexivity.
Defined.

(** X12. Loading always ends with [loading] cleared. When the request
    fails (the network fails, the status is not a 2xx, or the body has no
    items) the screen keeps its items, shows the load-failure message and
    speaks one, renders the error screen and enables no playback event:
    there is no retry. *)
Theorem failed_load_is_terminal
    (q_country : string) (count : option QueryValue) (s : PlayState)
    (result : FetchResult) :
  loading (fst (fetchTrivia q_country count result s)) = false
  /\ (result = NetworkFailure
      \/ (exists r, result = Responded r
                    /\ (ok r = false \/ exists e, body r = ErrorBody e)) ->
      let s' := fst (fetchTrivia q_country count result s) in
      error s' = loadFailedMessage
      /\ snd (fetchTrivia q_country count result s) = speak loadFailedSpoken
      /\ triviaItems s' = triviaItems s
      /\ screen s' = ErrorScreen
      /\ forall ev, enabled ev s' = false).
Proof.
  split.
  - unfold fetchTrivia. destruct result as [|r]; [done|].
    destruct (ok r); [|done]. cbn [negb].
    destruct (body r) as [items|e]; [|done]. by destruct (length items =? 0)%nat.
  - intros Hfail.
    assert (E : fetchTrivia q_country count result s
                = (setLoading false (setError loadFailedMessage (setLoading true s)),
                   speak loadFailedSpoken)).
    { unfold fetchTrivia.
      destruct Hfail as [->|(r & -> & [Hok|[e He]])]; [done | by rewrite Hok |].
      rewrite He. by destruct (ok r). }
    rewrite E. simpl. repeat split; try done.
    intros ev. by destruct ev.
Qed.

Lemma failed_load_is_terminal_witness :
  let r := mkResponse 500 (ErrorBody "Internal server error while fetching trivia") in
  let s' := fst (fetchTrivia "USA" None (Responded r) initialState) in
  error s' = loadFailedMessage
  /\ snd (fetchTrivia "USA" None (Responded r) initialState) = speak loadFailedSpoken
  /\ triviaItems s' = []
  /\ screen s' = ErrorScreen
  /\ forall ev, enabled ev s' = false.
Proof.
  intros r.
  apply (failed_load_is_terminal "USA" None initialState (Responded r)).
  right. exists r. split; [reflexivity|]. left. reflexivity.
Defined.

(** X13. After a successful retrieval of at least one item, the list
    that is played is always a prefix of the list received (items are
    neither reordered nor added): its first [min n received] items for a
    count [n >= 0], all but the last [-n] for a negative count, and no
    item at all for a count that is not a number. *)
Theorem played_items_are_a_prefix
    (q_country : string) (count : option QueryValue) (s : PlayState)
    (items : list TriviaItem) :
  items <> [] ->
  let played := triviaItems (fst (fetchTrivia q_country count
                  (Responded (mkResponse 200 (Items items))) s)) in
  let len := Z.of_nat (length items) in
  (exists rest, items = (played ++ rest)%list)
  /\ match requestedCount count with
     | Some n =>
         Z.of_nat (length played)
         = if n <? 0 then Z.max (len + n) 0 else Z.min n len
     | None => played = []
     end.
Proof.
  intros Hne played len.
  assert (E : played = slice0 items (requestedCount count)).
  { subst played. unfold fetchTrivia.
    change (ok (mkResponse 200 (Items items))) with true. cbn [negb body].
    destruct items; [done|]. reflexivity. }
  rewrite E. unfold slice0. fold len. split.
  - eexists. symmetry. apply take_drop.
  - destruct (requestedCount count) as [n|].
    2:{ cbn [Z.ltb Z.compare]. rewrite Z.min_l by lia. done. }
    rewrite length_take.
    destruct (Z.ltb_spec n 0); subst len; lia.
Qed.

Lemma played_items_are_a_prefix_witness :
  let played := triviaItems (fst (fetchTrivia "USA" (Some (QString "-1"))
                  (Responded (mkResponse 200 (Items sample_data))) initialState)) in
  (exists rest, sample_data = (played ++ rest)%list)
  /\ match requestedCount (Some (QString "-1")) with
     | Some n =>
         Z.of_nat (length played)
         = if n <? 0 then Z.max (3 + n) 0 else Z.min n 3
     | None => played = []
     end.
Proof.
  apply (played_items_are_a_prefix "USA" (Some (QString "-1")) initialState
           sample_data).
  discriminate.
Defined.

(** X14. How a playback starts: when the load delivers a non-empty list
    (after the cap), the effect that speaks the question runs on the new
    render and leaves the screen in the start state of the playback
    (first item, answer hidden, countdown 8), having announced the number
    of questions and then spoken the first question. *)
Theorem load_starts_the_playback
    (q_country : string) (count : option QueryValue)
    (items : list TriviaItem) (first : TriviaItem) (rest : list TriviaItem) :
  slice0 items (requestedCount count) = first :: rest ->
  let r := fetchTrivia q_country count
             (Responded (mkResponse 200 (Items items))) initialState in
  snd r = speak ("Starting trivia for " ++ q_country ++ " with "
                 ++ pretty (length (first :: rest))
                 ++ " questions. Get ready for your first question.")
  /\ speakQuestionEffect initialState (fst r)
     = Some (playing (first :: rest), speak (question first))
  /\ enabled Tick (playing (first :: rest)) = true.
Proof.
  intros Hslice r. subst r. unfold fetchTrivia.
  change (ok (mkResponse 200 (Items items))) with true. cbn [negb body].
  destruct items as [|x items]; [by destruct (requestedCount count) as [[]|]|].
  cbn [length Nat.eqb]. rewrite Hslice. cbn [fst snd].
  split; [done|]. split; [|done].
  unfold speakQuestionEffect. rewrite bool_decide_eq_false_2 by done.
  reflexivity.
Qed.

Lemma load_starts_the_playback_witness :
  let r := fetchTrivia "USA" (Some (QString "2"))
             (Responded (mkResponse 200 (Items sample_data))) initialState in
  snd r = speak "Starting trivia for USA with 2 questions. Get ready for your first question."
  /\ speakQuestionEffect initialState (fst r)
     = Some (playing (take 2 sample_data), speak "Q1")
  /\ enabled Tick (playing (take 2 sample_data)) = true.
Proof.
  apply (load_starts_the_playback "USA" (Some (QString "2")) sample_data
           (mkItem "USA" "1940-1959" "Q1" "A1" None)
           [mkItem "Nigeria" "1960-1979" "Q2" "A2" (Some "F2")]).
  reflexivity.
Defined.

(** The states that a step can lead to. *)
Lemma step_forms items s ev s' :
  invariant items s -> step s ev s' ->
  (1 < countdown s /\ s' = setCountdown (countdown s - 1) s)
  \/ (showAnswer s = false /\ s' = setCountdown 6 (setShowAnswer true s))
  \/ s' = setCountdown 8 (setShowAnswer false
            (setCurrentIndex (currentIndex s + 1) s))
  \/ s' = setCountdown 0 (setHasEnded true s)
  \/ s' = setIsPaused (negb (isPaused s)) s
  \/ (showAnswer s = false /\ s' = setCountdown 8 (setIsPaused false s))
  \/ s' = s
  \/ s' = setHasEnded true s
  \/ s' = setCountdown 8 (setIsPaused false (setHasEnded false
            (setShowAnswer false (setCurrentIndex 0 s)))).
Proof.
  intros (Hit & Hl & He & Hi & Hc & Hc1) Hstep.
  destruct Hstep as [s ev s' out Hen Hfire].
  assert (Hlen : length_of s = Z.of_nat (length items))
    by (unfold length_of; by rewrite Hit).
  assert (Hi' : 0 <= currentIndex s < length_of s) by lia.
  destruct ev.
  - destruct (Z.le_gt_cases (countdown s) 1) as [Hexp|Hexp].
    + destruct (showAnswer s) eqn:Ha.
      * destruct (Z.lt_ge_cases (currentIndex s) (length_of s - 1)) as [Hn|Hn].
        -- destruct (fire_tick_advance s) as [o E]; [lia | done | done | done |].
           rewrite E in Hfire. injection Hfire as <- <-. tauto.
        -- destruct (fire_tick_end s) as [o E]; [done | done | lia |].
           rewrite E in Hfire. injection Hfire as <- <-. tauto.
      * destruct (fire_tick_reveal s) as [o E]; [done..|].
        rewrite E in Hfire. injection Hfire as <- <-. tauto.
    + rewrite fire_tick_decrement in Hfire by lia. injection Hfire as <- <-.
      left. split; [lia | done].
  - assert (Hend : hasEnded s = false).
    { unfold enabled, screen in Hen. rewrite Hl, (has_error_none s He) in Hen.
      by destruct (hasEnded s). }
    destruct (isPaused s) eqn:Hp.
    + destruct (fire_resume s) as [o E]; [done..|].
      rewrite E in Hfire. injection Hfire as <- <-.
      destruct (showAnswer s); tauto.
    + destruct (fire_pause s) as [o E]; [done|].
      rewrite E in Hfire. injection Hfire as <- <-. tauto.
  - destruct (fire_repeat s) as [o E]; [done|].
    rewrite E in Hfire. injection Hfire as <- <-. tauto.
  - destruct (Z.lt_ge_cases (currentIndex s) (length_of s - 1)) as [Hn|Hn].
    + destruct (fire_next_advance s) as [o E]; [lia | done |].
      rewrite E in Hfire. injection Hfire as <- <-. tauto.
    + destruct (fire_next_end s) as [o E]; [lia|].
      rewrite E in Hfire. injection Hfire as <- <-. tauto.
  - destruct (fire_replay s) as [o E]; [lia|].
    rewrite E in Hfire. injection Hfire as <- <-. tauto.
Qed.

Lemma step_countdown_bounds items s ev s' :
  invariant items s -> countdown_bounds s -> step s ev s' -> countdown_bounds s'.
Proof.
  intros Hinv (Hb & Ha & Hl) Hstep.
  destruct (step_forms _ _ _ _ Hinv Hstep)
    as [[? ->]|[[? ->]|[->|[->|[->|[[? ->]|[->|[->| ->]]]]]]]];
    unfold countdown_bounds; simpl; repeat split; intros; try lia; try done;
    try (specialize (Ha ltac:(done)); lia); try congruence.
  all: try (specialize (Hl ltac:(done)); lia).
Qed.

Lemma steps_countdown_bounds items s tr s' :
  invariant items s -> countdown_bounds s -> steps s tr s' -> countdown_bounds s'.
Proof.
  intros Hinv Hb Hsteps. induction Hsteps as [|s ev s1 tr s2 Hstep _ IH]; [done|].
  apply IH; [by eapply step_invariant | by eapply step_countdown_bounds].
Qed.

(** X15. The seconds on display: in every state of a playback the
    countdown is between 0 and 8, it is at most 6 while an answer is
    showing, and it is at least 1 as long as the playback has not ended. *)
Theorem countdown_stays_in_range
    (items : list TriviaItem) (tr : list (Event * PlayState)) (s : PlayState) :
  items <> [] -> steps (playing items) tr s ->
  0 <= countdown s <= 8
  /\ (showAnswer s = true -> countdown s <= 6)
  /\ (hasEnded s = false -> 1 <= countdown s).
Proof.
  intros Hne Hsteps.
  apply (steps_countdown_bounds items (playing items) tr s);
    [by apply playing_invariant | | done].
  unfold countdown_bounds. simpl. repeat split; try lia; done.
Qed.

Lemma countdown_stays_in_range_witness :
  let s := mkPlayState sample_data 0 false false "" false false 7 in
  0 <= countdown s <= 8
  /\ (showAnswer s = true -> countdown s <= 6)
  /\ (hasEnded s = false -> 1 <= countdown s).
Proof.
  intros s.
  apply (countdown_stays_in_range sample_data [(Tick, s)] s).
  - discriminate.
  - apply steps_cons with (s1 := s); [|apply steps_nil].
    eapply step_fire; reflexivity.
Defined.

Lemma answerText_cases (item : TriviaItem) :
  (funFact item = None \/ funFact item = Some "" ->
     answerText item = "The answer is: " ++ answer item)
  /\ (forall fact, funFact item = Some fact -> fact <> "" ->
       answerText item = "The answer is: " ++ answer item ++ ". " ++ fact).
Proof.
  unfold answerText. split.
  - by intros [-> | ->].
  - intros fact -> Hne. by destruct (String.eqb_spec fact "").
Qed.

Lemma repeatText_cases (item : TriviaItem) :
  (funFact item = None \/ funFact item = Some "" ->
     repeatText item = question item ++ ". The answer is: " ++ answer item)
  /\ (forall fact, funFact item = Some fact -> fact <> "" ->
       repeatText item
       = question item ++ ". The answer is: " ++ answer item ++ ". " ++ fact).
Proof.
  unfold repeatText. split.
  - by intros [-> | ->].
  - intros fact -> Hne. by destruct (String.eqb_spec fact "").
Qed.

(** X16. What a tick says. While the timer runs on an item: a tick that
    only counts down says nothing; the tick that reveals the answer
    speaks the answer, followed by the fun fact when the item has one
    that is not empty; the tick that moves on speaks the question of the
    next item; the tick that ends the playback speaks the closing
    sentence. *)
Theorem tick_narration (s : PlayState) (item : TriviaItem) :
  enabled Tick s = true -> 0 <= currentIndex s -> currentItem s = Some item ->
  (1 < countdown s -> snd <$> fire Tick s = Some [])
  /\ (countdown s <= 1 -> showAnswer s = false ->
      snd <$> fire Tick s = Some (speak (answerText item))
      /\ (funFact item = None \/ funFact item = Some "" ->
          answerText item = "The answer is: " ++ answer item)
      /\ (forall fact, funFact item = Some fact -> fact <> "" ->
          answerText item = "The answer is: " ++ answer item ++ ". " ++ fact))
  /\ (countdown s <= 1 -> showAnswer s = true ->
      forall next, triviaItems s !! Z.to_nat (currentIndex s + 1) = Some next ->
      snd <$> fire Tick s = Some (speak (question next)))
  /\ (countdown s <= 1 -> showAnswer s = true ->
      ~ currentIndex s < length_of s - 1 ->
      snd <$> fire Tick s = Some (speak finishedText)).
Proof.
  intros Hen Hi Hitem.
  destruct (enabled_running s Hen) as (Hl & He & Hp & Hend).
  split; [|split; [|split]].
  - intros Hc. by rewrite fire_tick_decrement.
  - intros Hc Ha. split; [|apply answerText_cases].
    unfold fire, handle, timerCallback.
    destruct (Z.leb_spec (countdown s) 1); [|lia].
    rewrite Ha, Hitem. cbn [negb].
    unfold speakQuestionEffect. rewrite bool_decide_eq_false_2.
    2:{ unfold speakDeps. simpl. rewrite Ha. congruence. }
    cbn [showAnswer setCountdown setShowAnswer negb]. rewrite !andb_false_r.
    by rewrite app_nil_r.
  - intros Hc Ha next Hnext. unfold fire, handle, timerCallback.
    destruct (Z.leb_spec (countdown s) 1); [|lia].
    rewrite Ha. cbn [negb].
    assert (Hlt : currentIndex s < length_of s - 1).
    { apply lookup_lt_Some in Hnext. unfold length_of. lia. }
    destruct (Z.ltb_spec (currentIndex s) (length_of s - 1)); [|lia].
    unfold speakQuestionEffect. rewrite bool_decide_eq_false_2.
    2:{ unfold speakDeps. simpl. intros E. injection E. lia. }
    unfold has_error, length_of, currentItem in *.
    cbn [loading error isPaused hasEnded showAnswer triviaItems currentIndex
         setCountdown setShowAnswer setCurrentIndex].
    rewrite Hl, He, Hp, Hend, Hnext. cbn [negb andb].
    destruct (Z.ltb_spec 0 (Z.of_nat (length (triviaItems s)))); [|lia].
    destruct (Z.leb_spec 0 (currentIndex s + 1)); [|lia]. done.
  - intros Hc Ha Hn. unfold fire, handle, timerCallback.
    destruct (Z.leb_spec (countdown s) 1); [|lia].
    rewrite Ha. cbn [negb].
    destruct (Z.ltb_spec (currentIndex s) (length_of s - 1)); [lia|].
    unfold speakQuestionEffect. rewrite bool_decide_eq_false_2.
    2:{ unfold speakDeps. simpl. rewrite Hend. congruence. }
    cbn [hasEnded setCountdown setHasEnded negb]. rewrite !andb_false_r.
    done.
Qed.

Lemma tick_narration_witness :
  snd <$> fire Tick sample_question_at_5 = Some []
  /\ snd <$> fire Tick sample_question_expiring
     = Some [Cancel; Say "The answer is: A1"]
  /\ snd <$> fire Tick sample_blank_question
     = Some [Cancel; Say "The answer is: A1"]
  /\ snd <$> fire Tick sample_answer_expiring = Some [Cancel; Say "Q2"]
  /\ snd <$> fire Tick (mkPlayState sample_data 2 true false "" false false 1)
     = Some (speak finishedText).
Proof.
  split; [|split; [|split; [|split]]].
  - apply (tick_narration sample_question_at_5
             (mkItem "USA" "1940-1959" "Q1" "A1" None));
      [reflexivity | discriminate | reflexivity | reflexivity].
  - apply (tick_narration sample_question_expiring
             (mkItem "USA" "1940-1959" "Q1" "A1" None));
      [reflexivity | discriminate | reflexivity | discriminate | reflexivity].
  - apply (tick_narration sample_blank_question sample_blank_fact);
      [reflexivity | discriminate | reflexivity | discriminate | reflexivity].
  - apply (tick_narration sample_answer_expiring
             (mkItem "USA" "1940-1959" "Q1" "A1" None)) with
      (next := mkItem "Nigeria" "1960-1979" "Q2" "A2" (Some "F2"));
      [reflexivity | discriminate | reflexivity | discriminate | reflexivity
      | reflexivity].
  - apply (tick_narration (mkPlayState sample_data 2 true false "" false false 1)
             (mkItem "USA" "1980-1999" "Q3" "A3" None));
      [reflexivity | discriminate | reflexivity | discriminate | reflexivity
      | vm_compute; discriminate].
Defined.

(** X17. Repeat changes nothing on the screen and never reveals an
    answer: while the question is showing it speaks the question only,
    and once the answer is showing it speaks the question, the answer
    and the fun fact if there is one that is not empty. Without items it
    does nothing. *)
Theorem repeat_only_speaks (s : PlayState) :
  (triviaItems s = [] -> fire Repeat s = Some (s, []))
  /\ (forall item, currentItem s = Some item ->
        fire Repeat s
        = Some (s, speak (if showAnswer s then repeatText item
                          else question item))
        /\ (funFact item = None \/ funFact item = Some "" ->
            repeatText item
            = question item ++ ". The answer is: " ++ answer item)
        /\ (forall fact, funFact item = Some fact -> fact <> "" ->
            repeatText item
            = question item ++ ". The answer is: " ++ answer item
              ++ ". " ++ fact)).
Proof.
  split.
  - intros E. unfold fire, handle, handleRepeat, length_of. rewrite E. simpl.
    by rewrite effect_same_deps.
  - intros item Hitem. split; [|apply repeatText_cases].
    unfold fire, handle, handleRepeat.
    assert (Hlen : length_of s <> 0).
    { unfold currentItem in Hitem. unfold length_of.
      destruct (0 <=? currentIndex s); [|done].
      apply lookup_lt_Some in Hitem. lia. }
    destruct (Z.eqb_spec (length_of s) 0); [done|]. rewrite Hitem.
    destruct (showAnswer s);
      rewrite effect_same_deps by done; by rewrite app_nil_r.
Qed.

Lemma repeat_only_speaks_witness :
  fire Repeat initialState = Some (initialState, [])
  /\ fire Repeat sample_question_at_5
     = Some (sample_question_at_5, [Cancel; Say "Q1"])
  /\ fire Repeat sample_answer_at_4
     = Some (sample_answer_at_4, [Cancel; Say "Q1. The answer is: A1"])
  /\ fire Repeat sample_blank_answer
     = Some (sample_blank_answer, [Cancel; Say "Q1. The answer is: A1"]).
Proof.
  split; [|split; [|split]].
  - apply (repeat_only_speaks initialState). reflexivity.
  - apply (proj2 (repeat_only_speaks sample_question_at_5)
             (mkItem "USA" "1940-1959" "Q1" "A1" None)). reflexivity.
  - apply (proj2 (repeat_only_speaks sample_answer_at_4)
             (mkItem "USA" "1940-1959" "Q1" "A1" None)). reflexivity.
  - apply (proj2 (repeat_only_speaks sample_blank_answer) sample_blank_fact).
    reflexivity.
Defined.
